(** * PumpAndDumpAlpha: the penny-stock universe filter and the intraday ranking

    A shallow embedding of [Algorithm.Python/Alphas/PumpAndDumpAlpha.py]:
    [PumpAndDumpAlphaModel.Update] (the ranking model) and
    [PennyStockUniverseSelectionModel.SelectCoarse] (the universe filter).

    Modelling choices.
    - A Python [float] is an IEEE 754 binary64 number, [spec_float] with
      precision 53 and maximal exponent 1024; [/] and [-] are the correctly
      rounded operations [SFdiv] and [SFsub], [==] and [<] are [SFeqb] and
      [SFltb].  [round(x, 6)] is the float nearest to the exact value of [x]
      rounded to 6 decimals, ties to even.
    - The open and close of a security are host decimals, which reach the
      Python code as finite floats: a [price] is a float that is neither a
      NaN nor an infinity.
    - The universe filter only compares its volumes and prices with
      constants and with one another; they are modelled as exact rationals
      [Q], compared with [Qcompare].
    - A [Symbol] is its ticker string, ordered lexicographically.
    - A Python [dict] is an association list in insertion order; assigning to
      a key that is present replaces the value in place.
    - [sorted] is a stable sort that only ever asks [<] of two keys.
    - Methods run in a small state-and-exception monad over [self]. *)

From Stdlib Require Import List Bool ZArith QArith Qround String Lia Lqa.
From Stdlib Require Import Floats.SpecFloat.
From Stdlib Require Import Sorting.Sorted Sorting.Permutation OrderedTypeEx.
Import ListNotations.

Set Implicit Arguments.

(* ===================================================================== *)
(** ** Exceptions and the method monad *)

Inductive exn : Type :=
| ZeroDivisionError.

Inductive result (A : Type) : Type :=
| Ok (a : A)
| Raise (e : exn).
Arguments Ok {A} a.
Arguments Raise {A} e.

(** A method body: reads and writes [self : S]; an exception leaves the
    writes made so far in place. *)
Definition M (S A : Type) : Type := S -> result A * S.

Definition ret {S A} (a : A) : M S A := fun s => (Ok a, s).

Definition bind {S A B} (m : M S A) (k : A -> M S B) : M S B :=
  fun s =>
    match m s with
    | (Ok a, s') => k a s'
    | (Raise e, s') => (Raise e, s')
    end.

Definition raise {S A} (e : exn) : M S A := fun s => (Raise e, s).
Definition gets {S A} (f : S -> A) : M S A := fun s => (Ok (f s), s).
Definition modify {S} (f : S -> S) : M S unit := fun s => (Ok tt, f s).

Declare Scope method_scope.
Delimit Scope method_scope with method.
Notation "x <- m ;; k" := (bind m (fun x => k))
  (at level 61, m at next level, right associativity) : method_scope.
Notation "m ;;; k" := (bind m (fun _ => k))
  (at level 61, right associativity) : method_scope.

(* ===================================================================== *)
(** ** Python built-ins used by the module *)

Definition Symbol : Type := string.

(** Python floats: binary64. *)
Definition float : Type := spec_float.
Definition prec : Z := 53.
Definition emax : Z := 1024.

(** [float(z)] for an [int] literal [z], as in [open != 0] and [... - 1]. *)
Definition float_of_int (z : Z) : float :=
  binary_normalize prec emax z 0 false.

(** [a == b], [a < b], [-a], [a - b] on floats. *)
Definition float_eq (a b : float) : bool := SFeqb a b.
Definition float_lt (a b : float) : bool := SFltb a b.
Definition float_neg (a : float) : float := SFopp a.
Definition float_sub (a b : float) : float := SFsub prec emax a b.

(** The quotient [a / b] of two floats when [b] is not a zero. *)
Definition float_div (a b : float) : float := SFdiv prec emax a b.

(** [a / b] on floats: a zero divisor raises. *)
Definition truediv {S} (a b : float) : M S float :=
  if float_eq b (float_of_int 0) then raise ZeroDivisionError
  else ret (float_div a b).

Definition Qltb (a b : Q) : bool :=
  match (a ?= b)%Q with Lt => true | _ => false end.

(** Nearest integer, ties to the even neighbour. *)
Definition round_half_even (x : Q) : Z :=
  let n := Qnum x in
  let d := Zpos (Qden x) in
  let q := (n / d)%Z in
  let r := (n mod d)%Z in
  match (2 * r ?= d)%Z with
  | Lt => q
  | Gt => (q + 1)%Z
  | Eq => if Z.even q then q else (q + 1)%Z
  end.

(** The exact value of a finite float. *)
Definition float_value (x : float) : Q :=
  match x with
  | S754_finite s m e =>
      let v :=
        match e with
        | Zneg k => Qmake (Zpos m) (2 ^ k)
        | _ => inject_Z (Zpos m * 2 ^ e)
        end in
      if s then (- v)%Q else v
  | _ => 0
  end.

(** The float nearest to the integer ratio [n / d], by one correctly
    rounded division of the two integers. *)
Definition nearest_float (s : bool) (n d : positive) : float :=
  SFdiv prec emax (S754_finite s n 0) (S754_finite false d 0).

(** [round(x, ndigits)] for [ndigits >= 0]: zeros, infinities and NaN round
    to themselves; a finite [x] goes to the decimal with [ndigits] places
    nearest to its exact value, ties to even, and from there to the nearest
    float. *)
Definition round (x : float) (ndigits : nat) : float :=
  match x with
  | S754_finite s _ _ =>
      let p := (10 ^ Z.of_nat ndigits)%Z in
      match round_half_even (float_value x * inject_Z p) with
      | Z0 => S754_zero s
      | Zpos n => nearest_float false n (Z.to_pos p)
      | Zneg n => nearest_float true n (Z.to_pos p)
      end
  | _ => x
  end.

(** [l[0:n]] and [l[:n]]: a negative bound counts from the end. *)
Definition slice_to {A} (n : Z) (l : list A) : list A :=
  if (0 <=? n)%Z then firstn (Z.to_nat n) l
  else firstn (List.length l - Z.to_nat (- n)) l.

Section Dict.
Variable V : Type.

Definition dict : Type := list (Symbol * V).

(** [d[k] = v] *)
Fixpoint dict_set (k : Symbol) (v : V) (d : dict) : dict :=
  match d with
  | [] => [(k, v)]
  | (k', v') :: rest =>
      if String.eqb k' k then (k, v) :: rest
      else (k', v') :: dict_set k v rest
  end.

Definition dict_items (d : dict) : list (Symbol * V) := d.

(** [dict(pairs)] *)
Definition dict_of (pairs : list (Symbol * V)) : dict :=
  fold_left (fun d kv => dict_set (fst kv) (snd kv) d) pairs [].

Fixpoint dict_get (k : Symbol) (d : dict) : option V :=
  match d with
  | [] => None
  | (k', v') :: rest => if String.eqb k' k then Some v' else dict_get k rest
  end.
End Dict.

Section SortedBuiltin.
Variables (A K : Type).
(** [lt] is [<] on keys. *)
Variable lt : K -> K -> bool.
Variable key : A -> K.

(** The element [x] stood before every element of [l] in the input: it
    goes in front of the first element that is not smaller than it. *)
Fixpoint sorted_insert (x : A) (l : list A) : list A :=
  match l with
  | [] => [x]
  | y :: ys =>
      if lt (key y) (key x) then y :: sorted_insert x ys
      else x :: y :: ys
  end.

(** [sorted(l, key=key)] *)
Definition sorted (l : list A) : list A :=
  fold_right sorted_insert [] l.
End SortedBuiltin.

(** [sorted(l, key=key, reverse=True)]: descending, and elements with equal
    keys still keep their input order. *)
Definition sorted_reverse {A K} (lt : K -> K -> bool) (key : A -> K)
    (l : list A) : list A :=
  sorted (fun a b => lt b a) key l.

(** [<] on the tuples [(float, Symbol)]: the first component that differs
    decides. *)
Definition tuple_lt (a b : float * Symbol) : bool :=
  if negb (float_eq (fst a) (fst b)) then float_lt (fst a) (fst b)
  else if negb (String.eqb (snd a) (snd b)) then String.ltb (snd a) (snd b)
  else false.

(* ===================================================================== *)
(** ** Host records *)

(** A float that is a zero or a finite binary64 number. *)
Definition is_price (x : float) : bool :=
  match x with
  | S754_zero _ => true
  | S754_finite _ m e => bounded prec emax m e
  | _ => false
  end.

Record price : Type := Price
  { price_float :> float; price_ok : is_price price_float = true }.

Module Security.
Record t : Type := Build
  { Symbol : Symbol; HasData : bool; Open : price; Close : price }.
End Security.

Module CoarseFundamental.
Record t : Type := Build
  { Symbol : Symbol; HasFundamentalData : bool;
    Volume : Q; Price : Q; DollarVolume : Q }.
End CoarseFundamental.

Module InsightType.
Inductive t : Type := Price | Volatility.
End InsightType.

Module InsightDirection.
Inductive t : Type := Down | Flat | Up.
End InsightDirection.

Module Resolution.
Inductive t : Type := Tick | Second | Minute | Hour | Daily.
End Resolution.

(** A time span, in seconds. *)
Definition TimeSpan : Type := Z.

Module Insight.
Record t : Type := Build
  { Symbol : Symbol; Type_ : InsightType.t; Period : TimeSpan;
    Direction : InsightDirection.t; Magnitude : option float;
    Confidence : option float }.

(** [Insight.Price(symbol, period, direction, magnitude, confidence)] *)
Definition Price (symbol : string) (period : TimeSpan)
    (direction : InsightDirection.t) (magnitude confidence : option float)
    : t :=
  Build symbol InsightType.Price period direction magnitude confidence.
End Insight.

(** Modelled from the spec: [Extensions.ToTimeSpan] and [Time.Multiply] are
    host functions.  The spec gives [predictionInterval = resolutionPeriod *
    lookback], where the resolution period is the length of one period of
    the resolution (for example one day). *)
Definition ToTimeSpan (resolution : Resolution.t) : TimeSpan :=
  match resolution with
  | Resolution.Tick => 0
  | Resolution.Second => 1
  | Resolution.Minute => 60
  | Resolution.Hour => 3600
  | Resolution.Daily => 86400
  end%Z.

Definition Time_Multiply (interval : TimeSpan) (multiplier : Z) : TimeSpan :=
  (interval * multiplier)%Z.

(* ===================================================================== *)
(** ** PumpAndDumpAlphaModel *)

Local Open Scope method_scope.

Module PumpAndDumpAlphaModel.

Record t : Type := Build
  { predictionInterval : TimeSpan; numberOfStocks : Z }.

(** The keyword arguments the constructor looks at. *)
Record kwargs : Type := Kwargs
  { kw_lookback : option Z;
    kw_resolution : option Resolution.t;
    kw_numberOfStocks : option Z }.

Definition no_kwargs : kwargs := Kwargs None None None.

(** [__init__]: the result is the constructed object, or the exception the
    constructor raised. *)
Definition __init__ (kw : kwargs) : result t :=
  let lookback :=
    match kw_lookback kw with Some v => v | None => 1%Z end in
  let resolution :=
    match kw_resolution kw with Some v => v | None => Resolution.Daily end in
  let predictionInterval :=
    Time_Multiply (ToTimeSpan resolution) lookback in
  let numberOfStocks :=
    match kw_numberOfStocks kw with Some v => v | None => 10%Z end in
  Ok (Build predictionInterval numberOfStocks).

(** The loop over [algorithm.ActiveSecurities.Values], threading the local
    [symbolsRet]. *)
Fixpoint collect (securities : list Security.t) (symbolsRet : dict float)
    : M t (dict float) :=
  match securities with
  | [] => ret symbolsRet
  | security :: rest =>
      if Security.HasData security then
        let open : float := Security.Open security in
        if negb (float_eq open (float_of_int 0)) then
          q <- truediv (Security.Close security) open ;;
          collect rest
            (dict_set (Security.Symbol security)
               (float_sub q (float_of_int 1)) symbolsRet)
        else collect rest symbolsRet
      else collect rest symbolsRet
  end.

(** [lambda kv: (-round(kv[1], 6), kv[0])] *)
Definition rank_key (kv : Symbol * float) : float * Symbol :=
  (float_neg (round (snd kv) 6), fst kv).

(** The loop over [pumpedStocks.items()], appending to [insights]. *)
Fixpoint emit (items : list (Symbol * float)) (insights : list Insight.t)
    : M t (list Insight.t) :=
  match items with
  | [] => ret insights
  | (key, value) :: rest =>
      interval <- gets predictionInterval ;;
      emit rest
        (insights ++
           [Insight.Price key interval InsightDirection.Down
              (Some value) None])
  end.

Definition Update (ActiveSecurities : list Security.t)
    : M t (list Insight.t) :=
  let insights := [] in
  symbolsRet <- collect ActiveSecurities [] ;;
  n <- gets numberOfStocks ;;
  let pumpedStocks :=
    dict_of (slice_to n (sorted tuple_lt rank_key (dict_items symbolsRet))) in
  emit (dict_items pumpedStocks) insights.

End PumpAndDumpAlphaModel.

(* ===================================================================== *)
(** ** PennyStockUniverseSelectionModel *)

Module PennyStockUniverseSelectionModel.

Record t : Type := Build
  { numberOfSymbolsCoarse : Z; lastMonth : Z; symbols : list Symbol }.

Definition set_lastMonth (v : Z) (self : t) : t :=
  Build (numberOfSymbolsCoarse self) v (symbols self).

Definition set_symbols (v : list Symbol) (self : t) : t :=
  Build (numberOfSymbolsCoarse self) (lastMonth self) v.

(** [__init__]; the call to the host base class's constructor sets nothing
    this module reads. *)
Definition __init__ : t := Build 500 (-1) [].

(** The comprehension's condition. *)
Definition passes (x : CoarseFundamental.t) : bool :=
  CoarseFundamental.HasFundamentalData x
  && (Qltb (CoarseFundamental.Volume x) 1000000
      && Qltb 10000 (CoarseFundamental.Volume x))
  && (Qltb (CoarseFundamental.Price x) 5
      && Qltb 0 (CoarseFundamental.Price x)).

Definition SelectCoarse (month : Z) (coarse : list CoarseFundamental.t)
    : M t (list Symbol) :=
  last <- gets lastMonth ;;
  if (month =? last)%Z then gets symbols
  else
    modify (set_lastMonth month) ;;;
    let filtered := filter passes coarse in
    cap <- gets numberOfSymbolsCoarse ;;
    let top :=
      slice_to cap
        (sorted_reverse Qltb CoarseFundamental.DollarVolume filtered) in
    modify (set_symbols (map CoarseFundamental.Symbol top)) ;;;
    gets symbols.

End PennyStockUniverseSelectionModel.

(* ===================================================================== *)
(** * Specification vocabulary *)

(** [x] may stand before [y] in a sorted list: [y] is not smaller than [x]. *)
Definition before {A K} (lt : K -> K -> bool) (key : A -> K) (x y : A) : Prop :=
  lt (key y) (key x) = false.

Definition nonnan (x : float) : bool :=
  match x with
  | S754_nan => false
  | _ => true
  end.

(** Where a float that is not a NaN stands in the order of floats: the three
    components compare lexicographically as the floats compare. *)
Definition order_code (x : float) : Z * Z * Z :=
  match x with
  | S754_infinity true => (-2, 0, 0)
  | S754_finite true m e => (-1, - e, Zneg m)
  | S754_zero _ | S754_nan => (0, 0, 0)
  | S754_finite false m e => (1, e, Zpos m)
  | S754_infinity false => (2, 0, 0)
  end%Z.

Definition code_lt (x y : Z * Z * Z) : Prop :=
  let '(x1, x2, x3) := x in
  let '(y1, y2, y3) := y in
  (x1 < y1 \/ (x1 = y1 /\ (x2 < y2 \/ (x2 = y2 /\ x3 < y3))))%Z.

Definition symbol_lt (a b : Symbol) : Prop := String.ltb a b = true.

Definition keys {V} (d : dict V) : list Symbol := map fst d.

Section RankingVocabulary.
Import PumpAndDumpAlphaModel.

(** An observation the loop assigns a return to. *)
Definition valid (o : Security.t) : bool :=
  Security.HasData o
  && negb (float_eq (Security.Open o) (float_of_int 0)).

(** [security.Close / open - 1], in float arithmetic. *)
Definition intraday_return (o : Security.t) : float :=
  float_sub (float_div (Security.Close o) (Security.Open o))
    (float_of_int 1).

(** The last valid observation of symbol [s] in the input. *)
Fixpoint last_valid (s : Symbol) (obs : list Security.t)
    : option Security.t :=
  match obs with
  | [] => None
  | o :: rest =>
      match last_valid s rest with
      | Some o' => Some o'
      | None =>
          if valid o && String.eqb (Security.Symbol o) s then Some o
          else None
      end
  end.

(** What the loop leaves in [symbolsRet]. *)
Definition returns_from (obs : list Security.t) (d : dict float)
    : dict float :=
  fold_left
    (fun d o =>
       if valid o then dict_set (Security.Symbol o) (intraday_return o) d
       else d)
    obs d.

Definition ranked (obs : list Security.t) : list (Symbol * float) :=
  sorted tuple_lt rank_key (returns_from obs []).

Definition insight_for (self : t) (kv : Symbol * float) : Insight.t :=
  Insight.Price (fst kv) (predictionInterval self) InsightDirection.Down
    (Some (snd kv)) None.

(** [a] ranks before [b]: a larger rounded return, or an equal one and a
    smaller symbol. *)
Definition rank_order (a b : Symbol * float) : Prop :=
  float_lt (round (snd b) 6) (round (snd a) 6) = true \/
  (float_eq (round (snd a) 6) (round (snd b) 6) = true /\
   symbol_lt (fst a) (fst b)).

(** A float as a price; a NaN or an infinity is replaced by a zero. *)
Definition to_price (x : float) : price :=
  match is_price x as b return is_price x = b -> price with
  | true => fun H => Price x H
  | false => fun _ => Price (S754_zero false) eq_refl
  end eq_refl.

(** The price written [n / d] in decimal: the float nearest to it. *)
Definition price_of (n d : positive) : price :=
  to_price (nearest_float false n d).

(** The session of the spec's top-K example, and a model keeping two. *)
Definition session : list Security.t :=
  [ Security.Build "A"%string true (price_of 1 1) (price_of 110 100);
    Security.Build "B"%string true (price_of 1 1) (price_of 105 100);
    Security.Build "C"%string true (price_of 1 1) (price_of 90 100) ].

Definition top2 : t := Build 86400%Z 2.

(** What the spec asks of the constructor: a non-positive
    [numberOfStocks] is rejected with an exception. *)
Definition init_rejects_nonpositive : Prop :=
  forall kw n,
    kw_numberOfStocks kw = Some n -> (n <= 0)%Z ->
    exists e, __init__ kw = Raise e.

(** The entry the loop stores for a valid observation. *)
Definition entry (o : Security.t) : Symbol * float :=
  (Security.Symbol o, intraday_return o).

(** The symbols that have a valid observation, each once. *)
Definition valid_symbols (obs : list Security.t) : list Symbol :=
  nodup string_dec (map Security.Symbol (filter valid obs)).

(** A model with the default [numberOfStocks]. *)
Definition top10 : t := Build 86400%Z 10.

(** A model that drops the lowest-ranked entry. *)
Definition all_but_last : t := Build 86400%Z (-1).

End RankingVocabulary.

Section UniverseVocabulary.
Import PennyStockUniverseSelectionModel.

(** The filter criteria, as strict inequalities. *)
Definition meets_criteria (x : CoarseFundamental.t) : Prop :=
  CoarseFundamental.HasFundamentalData x = true /\
  (10000 < CoarseFundamental.Volume x)%Q /\
  (CoarseFundamental.Volume x < 1000000)%Q /\
  (0 < CoarseFundamental.Price x)%Q /\
  (CoarseFundamental.Price x < 5)%Q.

(** A candidate on one of the four thresholds. *)
Definition on_threshold (x : CoarseFundamental.t) : Prop :=
  (CoarseFundamental.Volume x == 1000000)%Q \/
  (CoarseFundamental.Volume x == 10000)%Q \/
  (CoarseFundamental.Price x == 5)%Q \/
  (CoarseFundamental.Price x == 0)%Q.

(** The filtered candidates in descending dollar volume. *)
Definition by_dollar_volume (coarse : list CoarseFundamental.t)
    : list CoarseFundamental.t :=
  sorted_reverse Qltb CoarseFundamental.DollarVolume (filter passes coarse).

Definition selection (cap : Z) (coarse : list CoarseFundamental.t)
    : list Symbol :=
  map CoarseFundamental.Symbol (slice_to cap (by_dollar_volume coarse)).

(** A history of calls [(month, coarse)], run from a given state. *)
Fixpoint run (calls : list (Z * list CoarseFundamental.t)) (self : t) : t :=
  match calls with
  | [] => self
  | (month, coarse) :: rest => run rest (snd (SelectCoarse month coarse self))
  end.

(** The candidates of the call in the history that last refreshed the
    cache; [source] when no call did. *)
Fixpoint refreshed_from (calls : list (Z * list CoarseFundamental.t))
    (self : t) (source : list CoarseFundamental.t)
    : list CoarseFundamental.t :=
  match calls with
  | [] => source
  | (month, coarse) :: rest =>
      refreshed_from rest (snd (SelectCoarse month coarse self))
        (if (month =? lastMonth self)%Z then source else coarse)
  end.

(** Descending dollar volume. *)
Definition dollar_volume_desc (a b : CoarseFundamental.t) : Prop :=
  (CoarseFundamental.DollarVolume b <= CoarseFundamental.DollarVolume a)%Q.

(** The candidates whose dollar volume equals [v]. *)
Definition with_dollar_volume (v : Q) (l : list CoarseFundamental.t)
    : list CoarseFundamental.t :=
  filter (fun x => Qeq_bool (CoarseFundamental.DollarVolume x) v) l.

(** A state that keeps the cap of 500 and caches the selection made from
    [source]. *)
Definition caches (source : list CoarseFundamental.t) (self : t) : Prop :=
  numberOfSymbolsCoarse self = 500%Z /\ symbols self = selection 500 source.

(** Candidates around the thresholds: only ["LOW"] and ["MID"] pass. *)
Definition candidates : list CoarseFundamental.t :=
  [ CoarseFundamental.Build "LOW"%string true 20000 1 20000;
    CoarseFundamental.Build "VMAX"%string true 1000000 1 1000000;
    CoarseFundamental.Build "VMIN"%string true 10000 1 10000;
    CoarseFundamental.Build "PMAX"%string true 20000 5 100000;
    CoarseFundamental.Build "PMIN"%string true 20000 0 0;
    CoarseFundamental.Build "MID"%string true 30000 2 60000;
    CoarseFundamental.Build "NOFUND"%string false 30000 2 60000 ].

(** Two candidates with the same symbol that both pass the filter. *)
Definition twice : list CoarseFundamental.t :=
  [ CoarseFundamental.Build "LOW"%string true 20000 1 20000;
    CoarseFundamental.Build "LOW"%string true 20000 1 20000 ].

(** The TrackedSet invariant and the insight bound as the spec words
    them: after any history of calls, at most 500 symbols and no
    duplicates; and at most [numberOfStocks] insights from any [Update]. *)
Definition tracked_set_invariant : Prop :=
  forall (calls : list (Z * list CoarseFundamental.t))
         (model : PumpAndDumpAlphaModel.t) (obs : list Security.t),
    let self := run calls __init__ in
    (List.length (symbols self) <= 500)%nat /\
    NoDup (symbols self) /\
    exists insights,
      PumpAndDumpAlphaModel.Update obs model = (Ok insights, model) /\
      (Z.of_nat (List.length insights)
       <= PumpAndDumpAlphaModel.numberOfStocks model)%Z.

(** No two passing candidates share a dollar volume. *)
Definition distinct_dollar_volumes (coarse : list CoarseFundamental.t)
    : Prop :=
  forall x y,
    In x coarse -> In y coarse -> passes x = true -> passes y = true ->
    (CoarseFundamental.DollarVolume x == CoarseFundamental.DollarVolume y)%Q ->
    x = y.

(** The candidates in another host order. *)
Definition candidates_reordered : list CoarseFundamental.t :=
  rev candidates.

End UniverseVocabulary.

(* ===================================================================== *)
(** * Properties *)

(** ** The [sorted] built-in *)

Section SortedFacts.
Variables (A K : Type).
Variable lt : K -> K -> bool.
Variable key : A -> K.

Lemma sorted_insert_perm x l :
  Permutation (sorted_insert lt key x l) (x :: l).
Proof.
  induction l as [|y ys IH]; simpl; [reflexivity|].
  destruct (lt (key y) (key x)); [|reflexivity].
  rewrite IH. apply perm_swap.
Qed.

Lemma sorted_perm l : Permutation (sorted lt key l) l.
Proof.
  induction l as [|x l IH]; simpl; [constructor|].
  rewrite sorted_insert_perm. now constructor.
Qed.

Lemma sorted_in x l : In x (sorted lt key l) <-> In x l.
Proof.
  split; apply Permutation_in; [|symmetry]; apply sorted_perm.
Qed.

Hypothesis lt_asym : forall a b, lt a b = true -> lt b a = false.
Hypothesis lt_negtrans :
  forall a b c, lt b a = false -> lt c b = false -> lt c a = false.

Lemma sorted_insert_ordered x l :
  StronglySorted (before lt key) l ->
  StronglySorted (before lt key) (sorted_insert lt key x l).
Proof.
  induction 1 as [|y ys Hys IH Hall]; simpl.
  - repeat constructor.
  - destruct (lt (key y) (key x)) eqn:E.
    + constructor; [exact IH|].
      apply (Permutation_Forall (Permutation_sym (sorted_insert_perm x ys))).
      constructor; [apply lt_asym, E | exact Hall].
    + constructor; [now constructor|].
      constructor; [exact E|].
      revert Hall. apply Forall_impl. intros z Hz.
      unfold before in *. eapply lt_negtrans; eassumption.
Qed.

Lemma sorted_ordered l : StronglySorted (before lt key) (sorted lt key l).
Proof.
  induction l as [|x l IH]; simpl; [constructor|].
  now apply sorted_insert_ordered.
Qed.

(** Stability: a class [P] of elements that [sorted] never reorders among
    themselves comes out in its input order. *)
Lemma sorted_insert_stable (P : A -> bool) x l :
  (forall y, In y l -> lt (key y) (key x) = true -> P x = true ->
             P y = false) ->
  filter P (sorted_insert lt key x l) = filter P (x :: l).
Proof.
  induction l as [|y ys IH]; intros H; [reflexivity|].
  simpl sorted_insert. destruct (lt (key y) (key x)) eqn:E; [|reflexivity].
  assert (IH' : filter P (sorted_insert lt key x ys) = filter P (x :: ys)).
  { apply IH. intros z Hz. apply H. now right. }
  simpl in *. rewrite IH'.
  destruct (P x) eqn:Px; [|reflexivity].
  rewrite (H y (or_introl eq_refl) E eq_refl). reflexivity.
Qed.

Lemma sorted_stable (P : A -> bool) l :
  (forall x y, lt (key y) (key x) = true -> P x = true -> P y = false) ->
  filter P (sorted lt key l) = filter P l.
Proof.
  intros H. induction l as [|x l IH]; [reflexivity|].
  simpl sorted. rewrite sorted_insert_stable.
  - simpl. now rewrite IH.
  - intros y _. apply H.
Qed.
End SortedFacts.

(** The same, when [lt] is only known to be an order on the keys of a
    class [P]. *)
Section SortedOn.
Variables (A K : Type).
Variable lt : K -> K -> bool.
Variable key : A -> K.
Variable P : K -> Prop.
Hypothesis lt_asym :
  forall a b, P a -> P b -> lt a b = true -> lt b a = false.
Hypothesis lt_negtrans :
  forall a b c, P a -> P b -> P c ->
                lt b a = false -> lt c b = false -> lt c a = false.

Lemma sorted_insert_ordered_on x l :
  P (key x) -> Forall (fun y => P (key y)) l ->
  StronglySorted (before lt key) l ->
  StronglySorted (before lt key) (sorted_insert lt key x l).
Proof.
  intros Hx Hl Hs. induction Hs as [|y ys Hys IH Hall]; simpl.
  - repeat constructor.
  - inversion_clear Hl as [|? ? Hy Hl'].
    destruct (lt (key y) (key x)) eqn:E.
    + constructor; [now apply IH|].
      apply (Permutation_Forall
               (Permutation_sym (sorted_insert_perm _ _ x ys))).
      constructor; [now apply lt_asym | exact Hall].
    + constructor; [now constructor|].
      constructor; [exact E|].
      rewrite Forall_forall in *. intros z Hz.
      unfold before in *. apply (lt_negtrans Hx Hy (Hl' z Hz) E).
      now apply Hall.
Qed.

Lemma sorted_ordered_on l :
  Forall (fun y => P (key y)) l ->
  StronglySorted (before lt key) (sorted lt key l).
Proof.
  induction 1 as [|x l Hx Hl IH]; simpl; [constructor|].
  apply sorted_insert_ordered_on; [exact Hx | | exact IH].
  now apply (Permutation_Forall (Permutation_sym (sorted_perm lt key l))).
Qed.
End SortedOn.

(** ** Orders on numbers, symbols and ranking keys *)

Lemma Qltb_lt a b : Qltb a b = true <-> (a < b)%Q.
Proof.
  unfold Qltb. rewrite Qlt_alt.
  destruct (a ?= b)%Q; split; congruence.
Qed.

Lemma Qltb_ge a b : Qltb a b = false <-> (b <= a)%Q.
Proof.
  rewrite <- Bool.not_true_iff_false, Qltb_lt. split.
  - apply Qnot_lt_le.
  - apply Qle_not_lt.
Qed.

Lemma Qeq_bool_false a b : Qeq_bool a b = false <-> ~ (a == b)%Q.
Proof.
  rewrite <- Bool.not_true_iff_false, Qeq_bool_iff. reflexivity.
Qed.

Lemma Qltb_asym a b : Qltb a b = true -> Qltb b a = false.
Proof. rewrite Qltb_lt, Qltb_ge. apply Qlt_le_weak. Qed.

Lemma Qltb_negtrans a b c :
  Qltb b a = false -> Qltb c b = false -> Qltb c a = false.
Proof. rewrite !Qltb_ge. intros; lra. Qed.

Lemma symbol_lt_cmp a b : symbol_lt a b <-> String.compare a b = Lt.
Proof.
  unfold symbol_lt, String.ltb.
  destruct (String.compare a b); split; congruence.
Qed.

Lemma symbol_lt_trans a b c : symbol_lt a b -> symbol_lt b c -> symbol_lt a c.
Proof.
  rewrite !symbol_lt_cmp.
  change String.compare with OrderedTypeEx.String_as_OT.cmp.
  rewrite !OrderedTypeEx.String_as_OT.cmp_lt.
  apply OrderedTypeEx.String_as_OT.lt_trans.
Qed.

Lemma symbol_lt_irrefl a : ~ symbol_lt a a.
Proof.
  rewrite symbol_lt_cmp. intros H.
  pose proof (String.compare_antisym a a) as E. rewrite H in E. discriminate.
Qed.

Lemma symbol_trichotomy a b : symbol_lt a b \/ a = b \/ symbol_lt b a.
Proof.
  rewrite !symbol_lt_cmp.
  pose proof (String.compare_antisym b a) as E.
  destruct (String.compare a b) eqn:C.
  - right; left. now apply String.compare_eq_iff.
  - now left.
  - right; right. rewrite E. reflexivity.
Qed.

(** ** The order of floats *)

Lemma lex_compare_lt (x1 x2 x3 y1 y2 y3 : Z) :
  match (x1 ?= y1)%Z with
  | Eq => match (x2 ?= y2)%Z with Eq => (x3 ?= y3)%Z | c => c end
  | c => c
  end = Lt <-> code_lt (x1, x2, x3) (y1, y2, y3).
Proof.
  unfold code_lt.
  destruct (Z.compare_spec x1 y1); [|split; [lia | intros _; reflexivity]
                                    |split; [discriminate | lia]].
  destruct (Z.compare_spec x2 y2); [|split; [lia | intros _; reflexivity]
                                    |split; [discriminate | lia]].
  destruct (Z.compare_spec x3 y3); split; try discriminate; try lia;
    intros _; reflexivity.
Qed.

Lemma lex_compare_eq (x1 x2 x3 y1 y2 y3 : Z) :
  match (x1 ?= y1)%Z with
  | Eq => match (x2 ?= y2)%Z with Eq => (x3 ?= y3)%Z | c => c end
  | c => c
  end = Eq <-> (x1, x2, x3) = (y1, y2, y3).
Proof.
  destruct (Z.compare_spec x1 y1);
    [|split; [discriminate | intros E; injection E; lia]
     |split; [discriminate | intros E; injection E; lia]].
  destruct (Z.compare_spec x2 y2);
    [|split; [discriminate | intros E; injection E; lia]
     |split; [discriminate | intros E; injection E; lia]].
  destruct (Z.compare_spec x3 y3); split; try discriminate;
    try (intros E; injection E; lia);
    try (intros _; congruence); intros _; reflexivity.
Qed.

(** On floats that are not NaN, [SFcompare] is the lexicographic comparison
    of the order codes. *)
Lemma SFcompare_code (a b : float) :
  nonnan a = true -> nonnan b = true ->
  SFcompare a b =
  Some (let '(x1, x2, x3) := order_code a in
        let '(y1, y2, y3) := order_code b in
        match (x1 ?= y1)%Z with
        | Eq => match (x2 ?= y2)%Z with Eq => (x3 ?= y3)%Z | c => c end
        | c => c
        end).
Proof.
  destruct a as [sa | sa | | sa ma ea], b as [sb | sb | | sb mb eb];
    try discriminate; intros _ _;
    try (destruct sa; reflexivity); try (destruct sb; reflexivity);
    try (destruct sa, sb; reflexivity).
  destruct sa, sb; try reflexivity; simpl.
  rewrite Z.compare_opp, (Z.compare_antisym ea eb).
  destruct (ea ?= eb)%Z; reflexivity.
Qed.

Lemma float_lt_code (a b : float) :
  nonnan a = true -> nonnan b = true ->
  (float_lt a b = true <-> code_lt (order_code a) (order_code b)).
Proof.
  intros Ha Hb. unfold float_lt, SFltb. rewrite (SFcompare_code a b Ha Hb).
  destruct (order_code a) as [[x1 x2] x3], (order_code b) as [[y1 y2] y3].
  rewrite <- lex_compare_lt.
  destruct (x1 ?= y1)%Z, (x2 ?= y2)%Z, (x3 ?= y3)%Z; split; congruence.
Qed.

Lemma float_eq_code (a b : float) :
  nonnan a = true -> nonnan b = true ->
  (float_eq a b = true <-> order_code a = order_code b).
Proof.
  intros Ha Hb. unfold float_eq, SFeqb. rewrite (SFcompare_code a b Ha Hb).
  destruct (order_code a) as [[x1 x2] x3], (order_code b) as [[y1 y2] y3].
  rewrite <- lex_compare_eq.
  destruct (x1 ?= y1)%Z, (x2 ?= y2)%Z, (x3 ?= y3)%Z; split; congruence.
Qed.

Lemma float_neg_nonnan (a : float) : nonnan (float_neg a) = nonnan a.
Proof. destruct a; reflexivity. Qed.

Lemma float_neg_code_lt (a b : float) :
  code_lt (order_code (float_neg a)) (order_code (float_neg b)) <->
  code_lt (order_code b) (order_code a).
Proof.
  destruct a as [sa | sa | | sa ma ea], b as [sb | sb | | sb mb eb];
    try destruct sa; try destruct sb; simpl; lia.
Qed.

Lemma float_neg_code_eq (a b : float) :
  order_code (float_neg a) = order_code (float_neg b) <->
  order_code a = order_code b.
Proof.
  destruct a as [sa | sa | | sa ma ea], b as [sb | sb | | sb mb eb];
    try destruct sa; try destruct sb; simpl;
    split; intros E; try discriminate E; try reflexivity;
    injection E; intros; f_equal; try f_equal; lia.
Qed.

Lemma code_lt_irrefl c : ~ code_lt c c.
Proof. destruct c as [[x1 x2] x3]. unfold code_lt. lia. Qed.

Lemma code_lt_trans c d e : code_lt c d -> code_lt d e -> code_lt c e.
Proof.
  destruct c as [[x1 x2] x3], d as [[y1 y2] y3], e as [[z1 z2] z3].
  unfold code_lt. lia.
Qed.

Lemma code_trichotomy c d : code_lt c d \/ c = d \/ code_lt d c.
Proof.
  destruct c as [[x1 x2] x3], d as [[y1 y2] y3]. unfold code_lt.
  destruct (Z.lt_trichotomy x1 y1) as [H | [H | H]]; [lia | | lia].
  destruct (Z.lt_trichotomy x2 y2) as [H2 | [H2 | H2]]; [lia | | lia].
  destruct (Z.lt_trichotomy x3 y3) as [H3 | [H3 | H3]]; [lia | | lia].
  right; left. congruence.
Qed.

(** [tuple_lt] is the lexicographic order on keys whose float is not a
    NaN. *)
Lemma tuple_lt_iff a b :
  nonnan (fst a) = true -> nonnan (fst b) = true ->
  (tuple_lt a b = true <->
   code_lt (order_code (fst a)) (order_code (fst b)) \/
   (order_code (fst a) = order_code (fst b) /\ symbol_lt (snd a) (snd b))).
Proof.
  intros Ha Hb. unfold tuple_lt, symbol_lt.
  destruct (float_eq (fst a) (fst b)) eqn:E; simpl.
  - apply (float_eq_code _ _ Ha Hb) in E.
    destruct (String.eqb (snd a) (snd b)) eqn:S; simpl.
    + apply String.eqb_eq in S. split; [discriminate|].
      intros [H | [_ H]].
      * rewrite E in H. now apply code_lt_irrefl in H.
      * rewrite S in H. now apply symbol_lt_irrefl in H.
    + split; [now right|]. intros [H | [_ H]]; [|exact H].
      rewrite E in H. now apply code_lt_irrefl in H.
  - assert (N : order_code (fst a) <> order_code (fst b)).
    { intros C. apply (float_eq_code _ _ Ha Hb) in C. congruence. }
    rewrite (float_lt_code _ _ Ha Hb).
    split; [now left|]. intros [H | [H _]]; [exact H | contradiction].
Qed.

Lemma tuple_lt_false a b :
  nonnan (fst a) = true -> nonnan (fst b) = true ->
  (tuple_lt b a = false <->
   code_lt (order_code (fst a)) (order_code (fst b)) \/
   (order_code (fst a) = order_code (fst b) /\
    (snd a = snd b \/ symbol_lt (snd a) (snd b)))).
Proof.
  intros Ha Hb.
  rewrite <- Bool.not_true_iff_false, (tuple_lt_iff b a Hb Ha). split.
  - intros H.
    destruct (code_trichotomy (order_code (fst a)) (order_code (fst b)))
      as [L | [E | G]].
    + now left.
    + right. split; [exact E|].
      destruct (symbol_trichotomy (snd a) (snd b)) as [L | [L | L]]; auto.
      exfalso. apply H. right. split; [now symmetry | exact L].
    + exfalso. apply H. now left.
  - intros [L | [E [S | S]]] [L' | [E' S']].
    + apply (@code_lt_irrefl (order_code (fst a))).
      eapply code_lt_trans; eassumption.
    + rewrite E' in L. now apply code_lt_irrefl in L.
    + rewrite E in L'. now apply code_lt_irrefl in L'.
    + rewrite S in S'. now apply symbol_lt_irrefl in S'.
    + rewrite E in L'. now apply code_lt_irrefl in L'.
    + apply (@symbol_lt_irrefl (snd a)). eapply symbol_lt_trans; eassumption.
Qed.

Lemma tuple_lt_asym a b :
  nonnan (fst a) = true -> nonnan (fst b) = true ->
  tuple_lt a b = true -> tuple_lt b a = false.
Proof.
  intros Ha Hb. rewrite (tuple_lt_iff a b Ha Hb), (tuple_lt_false a b Ha Hb).
  intros [L | [E S]]; [now left | right; auto].
Qed.

Lemma tuple_lt_negtrans a b c :
  nonnan (fst a) = true -> nonnan (fst b) = true -> nonnan (fst c) = true ->
  tuple_lt b a = false -> tuple_lt c b = false -> tuple_lt c a = false.
Proof.
  intros Ha Hb Hc.
  rewrite (tuple_lt_false a b Ha Hb), (tuple_lt_false b c Hb Hc),
    (tuple_lt_false a c Ha Hc).
  intros [L1 | [E1 S1]] [L2 | [E2 S2]].
  - left. eapply code_lt_trans; eassumption.
  - left. now rewrite <- E2.
  - left. now rewrite E1.
  - right. split; [congruence|].
    destruct S1 as [S1 | S1], S2 as [S2 | S2]; try (left; congruence).
    + right. now rewrite S1.
    + right. now rewrite <- S2.
    + right. eapply symbol_lt_trans; eassumption.
Qed.

(** ** Floats that are not NaN *)

Lemma shr_1_nonneg mrs : (0 <= shr_m mrs)%Z -> (0 <= shr_m (shr_1 mrs))%Z.
Proof.
  destruct mrs as [m r s]. simpl.
  destruct m as [|[p | p |] | p]; simpl; lia.
Qed.

Lemma iter_shr_1_nonneg p mrs :
  (0 <= shr_m mrs)%Z -> (0 <= shr_m (iter_pos shr_1 p mrs))%Z.
Proof.
  revert mrs. induction p as [p IH | p IH |]; intros mrs H; simpl.
  - now apply IH, IH, shr_1_nonneg.
  - now apply IH, IH.
  - now apply shr_1_nonneg.
Qed.

Lemma shr_fexp_nonneg m e l :
  (0 <= m)%Z -> (0 <= shr_m (fst (shr_fexp prec emax m e l)))%Z.
Proof.
  intros H. unfold shr_fexp, shr.
  assert (H0 : (0 <= shr_m (shr_record_of_loc m l))%Z)
    by (destruct l as [|[]]; exact H).
  destruct (fexp prec emax (Zdigits2 m + e) - e)%Z; simpl; try exact H0.
  now apply iter_shr_1_nonneg.
Qed.

Lemma round_nearest_even_nonneg m l :
  (0 <= m)%Z -> (0 <= round_nearest_even m l)%Z.
Proof.
  intros H. destruct l as [|[]]; simpl; try lia.
  destruct (Z.even m); lia.
Qed.

Lemma binary_round_aux_nonnan s m e l :
  (0 <= m)%Z -> nonnan (binary_round_aux prec emax s m e l) = true.
Proof.
  intros H. unfold binary_round_aux.
  pose proof (shr_fexp_nonneg e l H) as H1.
  destruct (shr_fexp prec emax m e l) as [mrs' e']. simpl in H1.
  pose proof (@shr_fexp_nonneg
                (round_nearest_even (shr_m mrs') (loc_of_shr_record mrs'))
                e' loc_Exact (round_nearest_even_nonneg _ H1)) as H2.
  destruct (shr_fexp prec emax _ e' loc_Exact) as [mrs'' e'']. simpl in H2.
  destruct (shr_m mrs''); [reflexivity | | lia].
  destruct (e'' <=? emax - prec)%Z; reflexivity.
Qed.

Lemma binary_normalize_nonnan m e s :
  nonnan (binary_normalize prec emax m e s) = true.
Proof.
  destruct m; simpl; [reflexivity | |]; unfold binary_round;
    destruct (shl_align _ _ _); now apply binary_round_aux_nonnan.
Qed.

Lemma SFdiv_finite_nonnan sa ma ea sb mb eb :
  nonnan (SFdiv prec emax (S754_finite sa ma ea) (S754_finite sb mb eb))
  = true.
Proof.
  simpl. unfold SFdiv_core_binary.
  destruct (Z.div_eucl _ (Z.pos mb)) as [q r] eqn:E.
  apply binary_round_aux_nonnan.
  replace q with (fst (Z.div_eucl
    match (ea - eb - Z.min (fexp prec emax (Zdigits2 (Z.pos ma) + ea
                                            - (Zdigits2 (Z.pos mb) + eb)))
                       (ea - eb))%Z with
    | 0%Z => Z.pos ma
    | Z.pos _ => Z.shiftl (Z.pos ma)
                   (ea - eb - Z.min (fexp prec emax (Zdigits2 (Z.pos ma) + ea
                                            - (Zdigits2 (Z.pos mb) + eb)))
                       (ea - eb))
    | Z.neg _ => 0%Z
    end (Z.pos mb))) by (now rewrite E).
  change (fst (Z.div_eucl ?a ?b)) with (Z.div a b).
  apply Z.div_pos; [|lia].
  destruct (ea - eb - _)%Z eqn:S; try lia.
  apply Z.shiftl_nonneg. lia.
Qed.

Lemma float_div_nonnan (a b : float) :
  is_price a = true -> is_price b = true ->
  float_eq b (float_of_int 0) = false ->
  nonnan (float_div a b) = true.
Proof.
  unfold float_div.
  destruct a as [sa | sa | | sa ma ea], b as [sb | sb | | sb mb eb];
    try discriminate; intros _ _ Hz; try reflexivity.
  apply SFdiv_finite_nonnan.
Qed.

Lemma float_sub_finite_nonnan (a : float) s m e :
  nonnan a = true -> nonnan (float_sub a (S754_finite s m e)) = true.
Proof.
  unfold float_sub.
  destruct a as [sa | sa | | sa ma ea]; try discriminate; intros _;
    try reflexivity.
  apply binary_normalize_nonnan.
Qed.

Lemma round_nonnan (x : float) n : nonnan x = true -> nonnan (round x n) = true.
Proof.
  destruct x as [s | s | | s m e]; try discriminate; intros _;
    try reflexivity.
  unfold round.
  destruct (round_half_even _); [reflexivity | |];
    apply SFdiv_finite_nonnan.
Qed.

(** ** Slices *)

Lemma firstn_incl A k (l : list A) x : In x (firstn k l) -> In x l.
Proof.
  intros H. rewrite <- (firstn_skipn k l). apply in_or_app. now left.
Qed.

Lemma firstn_NoDup A k (l : list A) : NoDup l -> NoDup (firstn k l).
Proof.
  intros H. rewrite <- (firstn_skipn k l) in H.
  now apply NoDup_app_remove_r in H.
Qed.

Lemma slice_to_nonneg A n (l : list A) :
  (0 <= n)%Z -> slice_to n l = firstn (Z.to_nat n) l.
Proof.
  intros H. unfold slice_to.
  destruct (Z.leb_spec 0 n); [reflexivity | lia].
Qed.

Lemma slice_to_firstn A n (l : list A) :
  exists k, slice_to n l = firstn k l.
Proof. unfold slice_to. destruct (0 <=? n)%Z; eauto. Qed.

Lemma slice_to_length A n (l : list A) :
  (0 <= n)%Z -> (Z.of_nat (List.length (slice_to n l)) <= n)%Z.
Proof.
  intros H. rewrite slice_to_nonneg by exact H.
  pose proof (firstn_le_length (Z.to_nat n) l). lia.
Qed.

(** ** Dictionaries *)

Section DictFacts.
Variable V : Type.
Implicit Types (d : dict V) (k : Symbol) (v : V).

Lemma dict_set_fresh k v d :
  ~ In k (keys d) -> dict_set k v d = d ++ [(k, v)].
Proof.
  induction d as [|[k' v'] d IH]; simpl; intros H; [reflexivity|].
  destruct (String.eqb_spec k' k) as [E | N]; [tauto|].
  f_equal. apply IH. tauto.
Qed.

Lemma dict_set_keys k v d x :
  In x (keys (dict_set k v d)) <-> x = k \/ In x (keys d).
Proof.
  induction d as [|[k' v'] d IH]; simpl; [intuition|].
  destruct (String.eqb_spec k' k) as [E | N]; simpl.
  - subst. intuition.
  - rewrite IH. intuition.
Qed.

Lemma dict_set_NoDup k v d : NoDup (keys d) -> NoDup (keys (dict_set k v d)).
Proof.
  induction d as [|[k' v'] d IH]; simpl; intros H.
  - repeat constructor. intros [].
  - inversion_clear H as [|? ? Hn Hd].
    destruct (String.eqb_spec k' k) as [E | N]; simpl.
    + subst. now constructor.
    + constructor; [|now apply IH].
      fold (keys (dict_set k v d)). rewrite dict_set_keys.
      intros [E | I]; [congruence | contradiction].
Qed.

Lemma dict_get_set k v d x :
  dict_get x (dict_set k v d) =
  if String.eqb k x then Some v else dict_get x d.
Proof.
  induction d as [|[k' v'] d IH]; simpl.
  - reflexivity.
  - destruct (String.eqb_spec k' k) as [E | N]; simpl.
    + subst. destruct (String.eqb k x); reflexivity.
    + rewrite IH. destruct (String.eqb_spec k' x) as [E' | N'];
        [|reflexivity].
      subst. destruct (String.eqb_spec k x); [congruence | reflexivity].
Qed.

Lemma dict_get_In k v d :
  NoDup (keys d) -> (In (k, v) d <-> dict_get k d = Some v).
Proof.
  induction d as [|[k' v'] d IH]; simpl; intros H.
  - split; [tauto | discriminate].
  - inversion_clear H as [|? ? Hn Hd].
    destruct (String.eqb_spec k' k) as [E | N].
    + subst. split.
      * intros [E | I]; [congruence|].
        exfalso. apply Hn. change k with (fst (k, v)). now apply in_map.
      * intros E. left. congruence.
    + rewrite <- (IH Hd). split; [|tauto].
      intros [E | I]; [congruence | exact I].
Qed.

(** [dict(pairs)] of pairs with distinct keys is the pairs, in order. *)
Lemma dict_of_NoDup (l : list (Symbol * V)) :
  NoDup (map fst l) -> dict_of l = l.
Proof.
  unfold dict_of. change l with ([] ++ l) at 1 3.
  generalize (@nil (Symbol * V)) as d.
  induction l as [|[k v] l IH]; intros d H; simpl.
  - now rewrite app_nil_r.
  - rewrite dict_set_fresh.
    + rewrite IH; rewrite <- app_assoc; [reflexivity | exact H].
    + rewrite map_app in H. simpl in H.
      apply NoDup_remove_2 in H. intros I. apply H.
      apply in_or_app. now left.
Qed.
End DictFacts.

(** ** The ranking model *)

Section Ranking.
Import PumpAndDumpAlphaModel.

Lemma collect_run obs d self :
  collect obs d self = (Ok (returns_from obs d), self).
Proof.
  revert d. induction obs as [|o obs IH]; intros d; [reflexivity|].
  change (returns_from (o :: obs) d)
    with (returns_from obs
            (if valid o
             then dict_set (Security.Symbol o) (intraday_return o) d
             else d)).
  unfold valid. cbn [collect].
  destruct (Security.HasData o); cbn [andb]; [|apply IH].
  destruct (float_eq (Security.Open o) (float_of_int 0)) eqn:E; cbn [negb];
    [apply IH|].
  unfold truediv, bind. rewrite E. unfold ret. apply IH.
Qed.

Lemma emit_run items insights self :
  emit items insights self =
  (Ok (insights ++ map (insight_for self) items), self).
Proof.
  revert insights. induction items as [|[k v] items IH]; intros insights.
  - simpl. now rewrite app_nil_r.
  - simpl. unfold bind, gets. rewrite IH, <- app_assoc. reflexivity.
Qed.

Lemma returns_from_NoDup obs d :
  NoDup (keys d) -> NoDup (keys (returns_from obs d)).
Proof.
  revert d. induction obs as [|o obs IH]; intros d H; [exact H|].
  simpl. apply IH. destruct (valid o); [|exact H].
  now apply dict_set_NoDup.
Qed.

Lemma returns_from_get obs d s :
  dict_get s (returns_from obs d) =
  match last_valid s obs with
  | Some o => Some (intraday_return o)
  | None => dict_get s d
  end.
Proof.
  revert d. induction obs as [|o obs IH]; intros d; [reflexivity|].
  simpl. rewrite IH. destruct (last_valid s obs); [reflexivity|].
  destruct (valid o); simpl; [|reflexivity].
  rewrite dict_get_set.
  destruct (String.eqb (Security.Symbol o) s); reflexivity.
Qed.

Lemma last_valid_some s obs o :
  last_valid s obs = Some o ->
  In o obs /\ valid o = true /\ Security.Symbol o = s.
Proof.
  induction obs as [|o' obs IH]; simpl; [discriminate|].
  destruct (last_valid s obs) as [o''|].
  - intros E. destruct (IH E) as (I & Hv). split; [now right | exact Hv].
  - destruct (valid o') eqn:Hv; simpl; [|discriminate].
    destruct (String.eqb_spec (Security.Symbol o') s); [|discriminate].
    intros E. injection E as <-. auto.
Qed.

Lemma ranked_perm obs : Permutation (ranked obs) (returns_from obs []).
Proof. apply sorted_perm. Qed.

Lemma ranked_NoDup obs : NoDup (keys (ranked obs)).
Proof.
  apply (Permutation_NoDup (l := keys (returns_from obs []))).
  - apply Permutation_map. symmetry. apply ranked_perm.
  - apply returns_from_NoDup. constructor.
Qed.

Lemma ranked_In obs s v :
  In (s, v) (ranked obs) <->
  exists o, last_valid s obs = Some o /\ v = intraday_return o.
Proof.
  unfold ranked. rewrite sorted_in.
  rewrite dict_get_In by (apply returns_from_NoDup; constructor).
  rewrite returns_from_get. simpl.
  destruct (last_valid s obs) as [o|]; split.
  - intros E. exists o. split; congruence.
  - intros (o' & E & ->). congruence.
  - discriminate.
  - intros (o' & E & _). discriminate.
Qed.

(** What [Update] computes, as a pure function of the model and the
    observations. *)
Lemma Update_run obs self :
  Update obs self =
  (Ok (map (insight_for self)
         (slice_to (numberOfStocks self) (ranked obs))), self).
Proof.
  unfold Update, bind, gets. rewrite collect_run.
  unfold dict_items. rewrite dict_of_NoDup.
  - rewrite emit_run. reflexivity.
  - destruct (slice_to_firstn (numberOfStocks self)
                (sorted tuple_lt rank_key (returns_from obs [])))
      as [k ->].
    rewrite <- firstn_map. apply firstn_NoDup, ranked_NoDup.
Qed.
End Ranking.

Section RankingOrder.
Import PumpAndDumpAlphaModel.

Lemma StronglySorted_distinct A B (R R' : A -> A -> Prop) (f : A -> B) l :
  (forall a b, In a l -> In b l -> R a b -> f a <> f b -> R' a b) ->
  StronglySorted R l -> NoDup (map f l) -> StronglySorted R' l.
Proof.
  intros HR Hs. induction Hs as [|x l Hl IH Hx]; simpl; intros Hn;
    [constructor|].
  inversion_clear Hn as [|? ? Hnx Hnl].
  constructor.
  - apply IH; [|exact Hnl]. intros a b Ha Hb. apply HR; now right.
  - rewrite Forall_forall in *. intros y Hy.
    apply HR; [now left | now right | now apply Hx |].
    intros E. apply Hnx. rewrite E. now apply in_map.
Qed.

(** The return of a valid observation, and so its ranking key, is not a
    NaN. *)
Lemma float_of_int_1 :
  float_of_int 1 = S754_finite false 4503599627370496 (-52).
Proof. reflexivity. Qed.

Lemma intraday_return_nonnan o :
  valid o = true -> nonnan (intraday_return o) = true.
Proof.
  unfold valid, intraday_return. rewrite Bool.andb_true_iff, Bool.negb_true_iff.
  intros [_ Hz]. rewrite float_of_int_1.
  apply float_sub_finite_nonnan, float_div_nonnan; try exact Hz;
    apply price_ok.
Qed.

Lemma ranked_key_nonnan obs kv :
  In kv (ranked obs) -> nonnan (fst (rank_key kv)) = true.
Proof.
  destruct kv as [s v]. intros H. apply ranked_In in H.
  destruct H as (o & Hl & ->). apply last_valid_some in Hl.
  simpl. rewrite float_neg_nonnan. apply round_nonnan.
  apply intraday_return_nonnan. tauto.
Qed.

Lemma StronglySorted_weaken A (R R' : A -> A -> Prop) l :
  (forall a b, R a b -> R' a b) ->
  StronglySorted R l -> StronglySorted R' l.
Proof.
  intros HR. induction 1 as [|x l Hl IH Hx]; constructor; [exact IH|].
  revert Hx. apply Forall_impl. intros y. apply HR.
Qed.

Lemma ranked_sorted obs : StronglySorted rank_order (ranked obs).
Proof.
  apply (@StronglySorted_distinct _ _ (before tuple_lt rank_key) _ fst).
  - intros [s1 v1] [s2 v2] I1 I2 H N. unfold before in H.
    apply ranked_key_nonnan in I1, I2.
    apply (tuple_lt_false _ _ I1 I2) in H. unfold rank_order.
    simpl in *. rewrite float_neg_nonnan in I1, I2.
    rewrite float_neg_code_lt, float_neg_code_eq in H.
    rewrite (float_lt_code _ _ I2 I1), (float_eq_code _ _ I1 I2).
    destruct H as [L | [E [S | S]]]; [now left | contradiction | now right].
  - apply sorted_ordered_on with (P := fun k => nonnan (fst k) = true).
    + apply tuple_lt_asym.
    + apply tuple_lt_negtrans.
    + apply Forall_forall. intros kv Hkv. apply (ranked_key_nonnan obs).
      unfold ranked. now apply sorted_in.
  - apply ranked_NoDup.
Qed.

Lemma last_valid_split s obs o :
  last_valid s obs = Some o <->
  exists earlier later,
    obs = earlier ++ o :: later /\
    valid o = true /\ Security.Symbol o = s /\
    forall o', In o' later -> valid o' = true -> Security.Symbol o' <> s.
Proof.
  split.
  - revert o. induction obs as [|o' obs IH]; simpl; intros o;
      [discriminate|].
    destruct (last_valid s obs) as [o''|] eqn:L.
    + intros E. injection E as <-.
      destruct (IH _ eq_refl) as (l1 & l2 & -> & H).
      exists (o' :: l1), l2. split; [reflexivity | exact H].
    + destruct (valid o') eqn:Hv; simpl; [|discriminate].
      destruct (String.eqb_spec (Security.Symbol o') s) as [E | N];
        [|discriminate].
      intros E'. injection E' as <-.
      exists [], obs. repeat split; auto.
      intros x Hx Hvx Hs.
      assert (F : forall l, In x l -> valid x = true ->
                    Security.Symbol x = s -> last_valid s l <> None).
      { clear. induction l as [|y l IHl]; simpl; [tauto|].
        intros [-> | I] Hv Hs.
        - destruct (last_valid s l); [discriminate|].
          rewrite Hv. simpl. apply String.eqb_eq in Hs.
          rewrite Hs. discriminate.
        - specialize (IHl I Hv Hs).
          destruct (last_valid s l); [discriminate | congruence]. }
      now apply (F obs Hx Hvx Hs).
  - intros (l1 & l2 & -> & Hv & Hs & Hlater).
    assert (N : last_valid s l2 = None).
    { induction l2 as [|y l2 IHl]; [reflexivity|]. simpl.
      rewrite IHl by (intros; apply Hlater; [now right | assumption]).
      destruct (valid y) eqn:Hy; [|reflexivity]. simpl.
      destruct (String.eqb_spec (Security.Symbol y) s) as [E | _];
        [|reflexivity].
      exfalso. exact (Hlater y (or_introl eq_refl) Hy E). }
    induction l1 as [|y l1 IHl]; simpl.
    + rewrite N, Hv. simpl. apply String.eqb_eq in Hs. now rewrite Hs.
    + now rewrite IHl.
Qed.
End RankingOrder.

(** ** The universe filter *)

Section UniverseFilter.
Import PennyStockUniverseSelectionModel.

Lemma passes_iff x : passes x = true <-> meets_criteria x.
Proof.
  unfold passes, meets_criteria.
  rewrite !Bool.andb_true_iff, !Qltb_lt. tauto.
Qed.

Lemma SelectCoarse_cached month coarse self :
  month = lastMonth self ->
  SelectCoarse month coarse self = (Ok (symbols self), self).
Proof.
  intros ->. unfold SelectCoarse, bind, gets.
  now rewrite Z.eqb_refl.
Qed.

Lemma SelectCoarse_refresh month coarse self :
  month <> lastMonth self ->
  SelectCoarse month coarse self =
  (Ok (selection (numberOfSymbolsCoarse self) coarse),
   Build (numberOfSymbolsCoarse self) month
     (selection (numberOfSymbolsCoarse self) coarse)).
Proof.
  intros H. unfold SelectCoarse, bind, gets, modify.
  apply Z.eqb_neq in H. rewrite H. reflexivity.
Qed.

Lemma SelectCoarse_cases month coarse self :
  SelectCoarse month coarse self = (Ok (symbols self), self) \/
  SelectCoarse month coarse self =
  (Ok (selection (numberOfSymbolsCoarse self) coarse),
   Build (numberOfSymbolsCoarse self) month
     (selection (numberOfSymbolsCoarse self) coarse)).
Proof.
  destruct (Z.eq_dec month (lastMonth self)) as [E | N].
  - left. now apply SelectCoarse_cached.
  - right. now apply SelectCoarse_refresh.
Qed.

Lemma by_dollar_volume_perm coarse :
  Permutation (by_dollar_volume coarse) (filter passes coarse).
Proof. apply sorted_perm. Qed.

Lemma by_dollar_volume_sorted coarse :
  StronglySorted dollar_volume_desc (by_dollar_volume coarse).
Proof.
  unfold by_dollar_volume, sorted_reverse.
  eapply StronglySorted_weaken; [|apply sorted_ordered].
  - intros a b H. unfold before in H. now apply Qltb_ge in H.
  - intros a b. apply Qltb_asym.
  - intros a b c H1 H2. eapply Qltb_negtrans; eassumption.
Qed.

Lemma by_dollar_volume_stable coarse v :
  with_dollar_volume v (by_dollar_volume coarse) =
  with_dollar_volume v (filter passes coarse).
Proof.
  unfold with_dollar_volume, by_dollar_volume, sorted_reverse.
  apply sorted_stable. intros x y L Px.
  apply Qltb_lt in L. apply Qeq_bool_iff in Px.
  apply Qeq_bool_false. lra.
Qed.

Lemma NoDup_map_filter A B (f : A -> B) (p : A -> bool) l :
  NoDup (map f l) -> NoDup (map f (filter p l)).
Proof.
  induction l as [|x l IH]; simpl; intros H; [constructor|].
  inversion_clear H as [|? ? Hx Hl].
  destruct (p x); simpl; [|now apply IH].
  constructor; [|now apply IH].
  rewrite in_map_iff in *. intros (y & E & I). apply Hx.
  exists y. split; [exact E|]. apply filter_In in I. tauto.
Qed.

Lemma selection_NoDup cap coarse :
  NoDup (map CoarseFundamental.Symbol coarse) -> NoDup (selection cap coarse).
Proof.
  intros H. unfold selection.
  destruct (slice_to_firstn cap (by_dollar_volume coarse)) as [k ->].
  rewrite <- firstn_map. apply firstn_NoDup.
  apply (Permutation_NoDup
           (l := map CoarseFundamental.Symbol (filter passes coarse))).
  - apply Permutation_map. symmetry. apply by_dollar_volume_perm.
  - now apply NoDup_map_filter.
Qed.

Lemma selection_length cap coarse :
  (0 <= cap)%Z -> (Z.of_nat (List.length (selection cap coarse)) <= cap)%Z.
Proof.
  intros H. unfold selection. rewrite length_map.
  now apply slice_to_length.
Qed.

Lemma init_caches : caches [] __init__.
Proof. split; reflexivity. Qed.

Lemma SelectCoarse_caches month coarse source self :
  caches source self ->
  caches (if (month =? lastMonth self)%Z then source else coarse)
    (snd (SelectCoarse month coarse self)).
Proof.
  intros [Hc Hs]. destruct (Z.eqb_spec month (lastMonth self)) as [E | N].
  - rewrite (@SelectCoarse_cached month coarse self E). now split.
  - rewrite (@SelectCoarse_refresh month coarse self N). simpl.
    split; [exact Hc|]. simpl. now rewrite Hc.
Qed.

Lemma run_caches calls source self :
  caches source self ->
  caches (refreshed_from calls self source) (run calls self).
Proof.
  revert source self.
  induction calls as [|[month coarse] calls IH]; intros source self H;
    [exact H|].
  simpl. now apply IH, SelectCoarse_caches.
Qed.
End UniverseFilter.

(* ===================================================================== *)
(** * The ranking model: main results *)

Section RankingResults.
Import PumpAndDumpAlphaModel.

Example init_defaults : __init__ no_kwargs = Ok (Build 86400%Z 10).
Proof. reflexivity. Qed.

(** [1.10 / 1 - 1] and [1.05 / 1 - 1] in floats: 0.10000000000000009 and
    0.050000000000000044. *)
Example Update_session :
  Update session top2 =
  (Ok [ Insight.Price "A"%string 86400%Z InsightDirection.Down
          (Some (S754_finite false 7205759403792800 (-56))) None;
        Insight.Price "B"%string 86400%Z InsightDirection.Down
          (Some (S754_finite false 7205759403792800 (-57))) None ],
   top2).
Proof. vm_compute. reflexivity. Qed.

(** The float return of 2000001/2000000 is a little above 5e-7 and rounds
    to 1e-6, so ["B"] ranks before the flat ["A"]. *)
Example Update_rounds_the_float_return :
  fst (Update
         [ Security.Build "A"%string true (price_of 1 1) (price_of 1 1);
           Security.Build "B"%string true (price_of 2000000 1)
             (price_of 2000001 1) ]
         (Build 86400%Z 1)) =
  Ok [ Insight.Price "B"%string 86400%Z InsightDirection.Down
         (Some (S754_finite false 4722366483529728 (-73))) None ].
Proof. vm_compute. reflexivity. Qed.

(** With [numberOfStocks = -1] the slice drops the last ranked entry, here
    the flat ["A"]. *)
Example Update_drops_the_last_ranked :
  fst (Update
         [ Security.Build "A"%string true (price_of 1 1) (price_of 1 1);
           Security.Build "B"%string true (price_of 2000000 1)
             (price_of 2000001 1) ]
         all_but_last) =
  Ok [ Insight.Price "B"%string 86400%Z InsightDirection.Down
         (Some (S754_finite false 4722366483529728 (-73))) None ].
Proof. vm_compute. reflexivity. Qed.

(** The float returns of 1048577/1048576 and 2000003/2000000 both round to
    1e-6: the tie goes to the smaller symbol, ["A"]. *)
Example Update_breaks_float_ties_by_symbol :
  fst (Update
         [ Security.Build "A"%string true (price_of 1048576 1)
             (price_of 1048577 1);
           Security.Build "B"%string true (price_of 2000000 1)
             (price_of 2000003 1) ]
         (Build 86400%Z 1)) =
  Ok [ Insight.Price "A"%string 86400%Z InsightDirection.Down
         (Some (S754_finite false 4503599627370496 (-72))) None ].
Proof. vm_compute. reflexivity. Qed.

Lemma returns_from_filter obs d :
  returns_from (filter valid obs) d = returns_from obs d.
Proof.
  revert d. induction obs as [|o obs IH]; intros d; [reflexivity|].
  simpl. destruct (valid o) eqn:E; simpl; [rewrite E|]; apply IH.
Qed.

Lemma insight_for_symbol self l :
  map Insight.Symbol (map (insight_for self) l) = keys l.
Proof. unfold keys. rewrite map_map. reflexivity. Qed.

Lemma valid_iff o :
  valid o = true <->
  Security.HasData o = true /\
  float_eq (Security.Open o) (float_of_int 0) = false.
Proof.
  unfold valid. now rewrite Bool.andb_true_iff, Bool.negb_true_iff.
Qed.

(** C1.  With [numberOfStocks >= 0], [Update] returns the insights of the
    first [numberOfStocks] entries (all of them when there are fewer) of an
    order that holds exactly one entry per symbol with a valid observation
    (the float return of its last valid observation) and that is sorted by
    the return rounded to 6 decimals, descending, ties by symbol
    ascending. *)
Theorem Update_ranks_top_numberOfStocks (self : t) (obs : list Security.t) :
  (0 <= numberOfStocks self)%Z ->
  exists order : list (Symbol * float),
    NoDup (keys order) /\
    (forall s v,
        In (s, v) order <->
        exists o, last_valid s obs = Some o /\
                  v = float_sub
                        (float_div (Security.Close o) (Security.Open o))
                        (float_of_int 1)) /\
    StronglySorted rank_order order /\
    Update obs self =
    (Ok (map (insight_for self)
           (firstn (Z.to_nat (numberOfStocks self)) order)), self).
Proof.
  intros Hn. exists (ranked obs). split; [apply ranked_NoDup|].
  split; [apply ranked_In|]. split; [apply ranked_sorted|].
  rewrite Update_run. now rewrite slice_to_nonneg.
Qed.

Lemma Update_ranks_top_numberOfStocks_witness :
  (0 <= numberOfStocks top2)%Z /\
  exists order : list (Symbol * float),
    NoDup (keys order) /\
    (forall s v,
        In (s, v) order <->
        exists o, last_valid s session = Some o /\
                  v = float_sub
                        (float_div (Security.Close o) (Security.Open o))
                        (float_of_int 1)) /\
    StronglySorted rank_order order /\
    Update session top2 =
    (Ok (map (insight_for top2)
           (firstn (Z.to_nat (numberOfStocks top2)) order)), top2).
Proof.
  split; [simpl; lia|].
  apply (Update_ranks_top_numberOfStocks top2 session). simpl; lia.
Defined.

(** C2.  [Update] emits one insight for each entry selected by rank, in
    rank order: its direction is Down, its period the configured prediction
    interval, and its magnitude the float [close / open - 1] of the last
    valid observation of its symbol, as computed and not rounded. *)
Theorem Update_insight_down_unrounded (self : t) (obs : list Security.t) :
  exists selected : list (Symbol * float),
    selected = slice_to (numberOfStocks self) (ranked obs) /\
    Update obs self =
    (Ok (map (fun kv =>
                Insight.Price (fst kv) (predictionInterval self)
                  InsightDirection.Down (Some (snd kv)) None)
           selected), self) /\
    forall s v, In (s, v) selected ->
      exists o,
        In o obs /\ valid o = true /\
        Security.Symbol o = s /\
        last_valid s obs = Some o /\
        v = float_sub (float_div (Security.Close o) (Security.Open o))
              (float_of_int 1).
Proof.
  eexists. split; [reflexivity|]. split; [apply Update_run|].
  intros s v Hi.
  destruct (slice_to_firstn (numberOfStocks self) (ranked obs)) as [k E].
  rewrite E in Hi. apply firstn_incl, ranked_In in Hi.
  destruct Hi as (o & Hl & ->).
  destruct (last_valid_some _ _ Hl) as (Ho & Hv & Hs).
  exists o. auto.
Qed.

(** The ranking key and the magnitude differ: the float return of
    10000004/10000000, about 4e-7, is ranked as 0 and emitted as it is. *)
Example magnitude_is_not_the_ranking_key :
  let o :=
    Security.Build "A"%string true (price_of 10000000 1)
      (price_of 10000004 1) in
  round (intraday_return o) 6 = S754_zero false /\
  fst (Update [o] top2) =
  Ok [ Insight.Price "A"%string 86400%Z InsightDirection.Down
         (Some (S754_finite false 7555786372808704 (-74))) None ].
Proof. split; vm_compute; reflexivity. Qed.

(** C6.  [Update] never raises (the division is only reached with a
    non-zero [open]); its result is the same as on the input with every
    observation without data or with a zero open removed; and every
    insight comes from an observation with data and a non-zero open. *)
Theorem Update_ignores_invalid (self : t) (obs : list Security.t) :
  (exists insights,
      Update obs self = (Ok insights, self) /\
      forall i, In i insights ->
        exists o, In o obs /\ Security.Symbol o = Insight.Symbol i /\
                  Security.HasData o = true /\
                  float_eq (Security.Open o) (float_of_int 0) = false) /\
  (forall e self', Update obs self <> (Raise e, self')) /\
  Update (filter valid obs) self = Update obs self /\
  (forall earlier o later,
      obs = earlier ++ o :: later ->
      Security.HasData o = false \/
      float_eq (Security.Open o) (float_of_int 0) = true ->
      Update (earlier ++ later) self = Update obs self).
Proof.
  assert (F : forall l, Update (filter valid l) self = Update l self).
  { intros l. rewrite !Update_run. unfold ranked.
    now rewrite returns_from_filter. }
  split; [|split; [|split]].
  - eexists. split; [apply Update_run|].
    intros i Hi. apply in_map_iff in Hi. destruct Hi as ([s v] & <- & Hi).
    destruct (slice_to_firstn (numberOfStocks self) (ranked obs)) as [k E].
    rewrite E in Hi. apply firstn_incl, ranked_In in Hi.
    destruct Hi as (o & Hl & _).
    destruct (last_valid_some _ _ Hl) as (Ho & Hv & Hs).
    apply valid_iff in Hv. exists o. simpl. tauto.
  - intros e self'. rewrite Update_run. discriminate.
  - apply F.
  - intros earlier o later -> Ho.
    rewrite <- F, <- (F (earlier ++ o :: later)).
    rewrite !filter_app. simpl.
    assert (Hv : valid o = false).
    { apply Bool.not_true_iff_false. rewrite valid_iff.
      intros [Hd Hz]. destruct Ho as [Ho | Ho]; congruence. }
    now rewrite Hv.
Qed.

(** C9.  [Update] leaves the model as it found it, so its two fields are
    unchanged, and a second call on the same observations returns the same
    insights. *)
Theorem Update_is_pure (self : t) (obs : list Security.t) :
  let after := snd (Update obs self) in
  after = self /\
  predictionInterval after = predictionInterval self /\
  numberOfStocks after = numberOfStocks self /\
  fst (Update obs after) = fst (Update obs self) /\
  exists insights, fst (Update obs self) = Ok insights.
Proof.
  rewrite Update_run. simpl. rewrite Update_run. simpl. eauto 6.
Qed.

(** C10.  The insights carry pairwise distinct symbols, and the magnitude
    of the insight of a symbol is the float return of the last valid
    observation of that symbol: no valid observation of it comes later in
    the input. *)
Theorem Update_one_insight_per_symbol (self : t) (obs : list Security.t) :
  exists insights,
    Update obs self = (Ok insights, self) /\
    NoDup (map Insight.Symbol insights) /\
    forall i, In i insights ->
      exists earlier o later,
        obs = earlier ++ o :: later /\
        valid o = true /\
        Security.Symbol o = Insight.Symbol i /\
        (forall o', In o' later -> valid o' = true ->
                    Security.Symbol o' <> Insight.Symbol i) /\
        Insight.Magnitude i =
        Some (float_sub (float_div (Security.Close o) (Security.Open o))
                (float_of_int 1)).
Proof.
  eexists. split; [apply Update_run|].
  destruct (slice_to_firstn (numberOfStocks self) (ranked obs)) as [k E].
  rewrite E. split.
  - rewrite insight_for_symbol. unfold keys. rewrite <- firstn_map.
    apply firstn_NoDup, ranked_NoDup.
  - intros i Hi. apply in_map_iff in Hi. destruct Hi as ([s v] & <- & Hi).
    apply firstn_incl, ranked_In in Hi. destruct Hi as (o & Hl & ->).
    apply last_valid_split in Hl.
    destruct Hl as (earlier & later & Hobs & Hv & Hs & Hlater).
    exists earlier, o, later. simpl. auto.
Qed.

(** C7, as stated, fails: [numberOfStocks = 0] is accepted. *)
Lemma init_accepts_zero_numberOfStocks : ~ init_rejects_nonpositive.
Proof.
  intros H.
  destruct (H (Kwargs None None (Some 0%Z)) 0%Z eq_refl) as [e He];
    [lia | discriminate].
Qed.

(** C7, amended.  The constructor validates nothing: it never raises, and
    it stores [numberOfStocks] as given (10 when absent), whatever its
    sign. *)
Theorem init_stores_numberOfStocks_unchecked (kw : kwargs) :
  exists self,
    __init__ kw = Ok self /\
    numberOfStocks self =
    match kw_numberOfStocks kw with Some n => n | None => 10%Z end /\
    predictionInterval self =
    (ToTimeSpan
       match kw_resolution kw with Some r => r | None => Resolution.Daily end
     * match kw_lookback kw with Some k => k | None => 1 end)%Z.
Proof. eexists. split; [reflexivity|]. split; reflexivity. Qed.

End RankingResults.

(* ===================================================================== *)
(** * The universe filter: main results *)

Section UniverseResults.
Import PennyStockUniverseSelectionModel.

Example SelectCoarse_candidates :
  SelectCoarse 3 candidates __init__ =
  (Ok ["MID"; "LOW"]%string, Build 500 3 ["MID"; "LOW"]%string).
Proof. reflexivity. Qed.

Lemma on_threshold_fails x : on_threshold x -> ~ meets_criteria x.
Proof.
  unfold on_threshold, meets_criteria.
  intros [H | [H | [H | H]]] (_ & V1 & V2 & P1 & P2); lra.
Qed.

Lemma filter_partition A (p : A -> bool) l :
  Permutation l (filter p l ++ filter (fun x => negb (p x)) l).
Proof.
  induction l as [|x l IH]; simpl; [constructor|].
  destruct (p x); simpl.
  - now constructor.
  - now apply Permutation_cons_app.
Qed.

(** C3.  A call in the month of the last refresh returns the cached
    [symbols] and leaves the state as it was, whatever the candidates; and
    a second call in the same month, with any candidates, returns what the
    first returned and changes nothing. *)
Theorem SelectCoarse_same_month_cached
    (self : t) (month : Z) (coarse coarse' : list CoarseFundamental.t) :
  (month = lastMonth self ->
   SelectCoarse month coarse self = (Ok (symbols self), self)) /\
  (let first := SelectCoarse month coarse self in
   SelectCoarse month coarse' (snd first) = first).
Proof.
  split; [apply SelectCoarse_cached|]. simpl.
  destruct (Z.eq_dec month (lastMonth self)) as [E | N].
  - rewrite (@SelectCoarse_cached month coarse self E). simpl.
    now apply SelectCoarse_cached.
  - rewrite (@SelectCoarse_refresh month coarse self N). simpl.
    now rewrite SelectCoarse_cached.
Qed.

Lemma SelectCoarse_same_month_cached_witness :
  let self := run [(3%Z, candidates)] __init__ in
  3%Z = lastMonth self /\
  SelectCoarse 3 [] self = (Ok (symbols self), self).
Proof.
  split; [reflexivity|].
  apply (proj1 (SelectCoarse_same_month_cached
                  (run [(3%Z, candidates)] __init__) 3 [] [])).
  reflexivity.
Defined.

(** C4.  On a month change the candidates split into those kept, which
    all have fundamental data, 10000 < volume < 1000000 and 0 < price < 5,
    and those dropped, none of which has; a candidate on a threshold is
    dropped; and the result is taken from the kept ones only. *)
Theorem SelectCoarse_filter_strict
    (self : t) (month : Z) (coarse : list CoarseFundamental.t) :
  month <> lastMonth self ->
  exists kept dropped,
    Permutation coarse (kept ++ dropped) /\
    Forall meets_criteria kept /\
    Forall (fun x => ~ meets_criteria x) dropped /\
    (forall x, In x coarse -> on_threshold x ->
               In x dropped /\ ~ In x kept) /\
    let top :=
      slice_to (numberOfSymbolsCoarse self)
        (sorted_reverse Qltb CoarseFundamental.DollarVolume kept) in
    (forall x, In x top -> In x kept) /\
    SelectCoarse month coarse self =
    (Ok (map CoarseFundamental.Symbol top),
     Build (numberOfSymbolsCoarse self) month
       (map CoarseFundamental.Symbol top)).
Proof.
  intros Hm.
  exists (filter passes coarse), (filter (fun x => negb (passes x)) coarse).
  assert (Hk : Forall meets_criteria (filter passes coarse)).
  { apply Forall_forall. intros x Hx. apply filter_In in Hx.
    now apply passes_iff. }
  assert (Hd : Forall (fun x => ~ meets_criteria x)
                 (filter (fun x => negb (passes x)) coarse)).
  { apply Forall_forall. intros x Hx. apply filter_In in Hx.
    rewrite <- passes_iff. destruct Hx as [_ Hx].
    destruct (passes x); [discriminate | congruence]. }
  split; [apply filter_partition|].
  split; [exact Hk|]. split; [exact Hd|]. split; [|split].
  - intros x Hx Ht. apply on_threshold_fails in Ht.
    rewrite <- passes_iff in Ht. apply Bool.not_true_is_false in Ht.
    rewrite !filter_In, Ht. split; [tauto | intros [_ F]; discriminate].
  - intros x Hx.
    destruct (slice_to_firstn (numberOfSymbolsCoarse self)
                (sorted_reverse Qltb CoarseFundamental.DollarVolume
                   (filter passes coarse))) as [k E].
    rewrite E in Hx. apply firstn_incl in Hx.
    unfold sorted_reverse in Hx. now apply sorted_in in Hx.
  - now apply SelectCoarse_refresh.
Qed.

Lemma SelectCoarse_filter_strict_witness :
  3%Z <> lastMonth __init__ /\
  exists kept dropped,
    Permutation candidates (kept ++ dropped) /\
    Forall meets_criteria kept /\
    Forall (fun x => ~ meets_criteria x) dropped /\
    (forall x, In x candidates -> on_threshold x ->
               In x dropped /\ ~ In x kept) /\
    let top :=
      slice_to (numberOfSymbolsCoarse __init__)
        (sorted_reverse Qltb CoarseFundamental.DollarVolume kept) in
    (forall x, In x top -> In x kept) /\
    SelectCoarse 3 candidates __init__ =
    (Ok (map CoarseFundamental.Symbol top),
     Build (numberOfSymbolsCoarse __init__) 3
       (map CoarseFundamental.Symbol top)).
Proof.
  split; [discriminate|].
  apply (@SelectCoarse_filter_strict __init__ 3%Z candidates).
  discriminate.
Defined.

(** C5.  In every state a history of calls reaches from the initial one,
    a call returns at most 500 symbols: the first 500 of the candidates
    that passed the filter (those of this call when the month changed,
    those of the call that last refreshed the cache otherwise) put in
    descending dollar volume, candidates of equal dollar volume staying in
    their input order. *)
Theorem SelectCoarse_capped_sorted_stable
    (calls : list (Z * list CoarseFundamental.t))
    (month : Z) (coarse : list CoarseFundamental.t) :
  let self := run calls __init__ in
  let source :=
    if (month =? lastMonth self)%Z then refreshed_from calls __init__ []
    else coarse in
  exists ordered,
    Permutation ordered (filter passes source) /\
    StronglySorted dollar_volume_desc ordered /\
    (forall v,
        with_dollar_volume v ordered =
        with_dollar_volume v (filter passes source)) /\
    fst (SelectCoarse month coarse self) =
    Ok (map CoarseFundamental.Symbol (firstn 500 ordered)) /\
    (List.length (map CoarseFundamental.Symbol (firstn 500 ordered))
     <= 500)%nat.
Proof.
  intros self source.
  pose proof (SelectCoarse_caches month coarse (run_caches calls init_caches))
    as [_ Hsym].
  fold self source in Hsym.
  exists (by_dollar_volume source).
  split; [apply by_dollar_volume_perm|].
  split; [apply by_dollar_volume_sorted|].
  split; [intros v; apply by_dollar_volume_stable|].
  split.
  - rewrite <- (slice_to_nonneg (n := 500)) by lia.
    fold (selection 500 source). rewrite <- Hsym.
    destruct (SelectCoarse_cases month coarse self) as [-> | ->];
      reflexivity.
  - rewrite length_map. apply firstn_le_length.
Qed.

Example SelectCoarse_twice :
  symbols (run [(3%Z, twice)] __init__) = ["LOW"; "LOW"]%string.
Proof. reflexivity. Qed.

(** C8, as stated, fails: candidates that repeat a symbol leave a
    duplicate in [symbols]. *)
Lemma duplicate_candidates_break_invariant : ~ tracked_set_invariant.
Proof.
  intros H.
  destruct (H [(3%Z, twice)] top2 []) as (_ & Hn & _).
  rewrite SelectCoarse_twice in Hn.
  inversion_clear Hn as [|? ? Hx _]. apply Hx. now left.
Qed.

(** C8, amended.  When the candidates of every call carry pairwise
    distinct symbols, every reachable state holds at most 500 symbols and
    no duplicates; and a model with [numberOfStocks >= 0] returns at most
    [numberOfStocks] insights. *)
Theorem tracked_set_invariant_distinct_candidates
    (calls : list (Z * list CoarseFundamental.t))
    (model : PumpAndDumpAlphaModel.t) (obs : list Security.t) :
  Forall (fun call => NoDup (map CoarseFundamental.Symbol (snd call)))
    calls ->
  (0 <= PumpAndDumpAlphaModel.numberOfStocks model)%Z ->
  let self := run calls __init__ in
  (List.length (symbols self) <= 500)%nat /\
  NoDup (symbols self) /\
  exists insights,
    PumpAndDumpAlphaModel.Update obs model = (Ok insights, model) /\
    (Z.of_nat (List.length insights)
     <= PumpAndDumpAlphaModel.numberOfStocks model)%Z.
Proof.
  intros Hcalls Hn self. split; [|split].
  - destruct (run_caches calls init_caches) as [_ Hsym].
    fold self in Hsym. rewrite Hsym.
    pose proof (@selection_length 500 (refreshed_from calls __init__ [])
                  ltac:(lia)).
    lia.
  - subst self.
    assert (G : forall st, numberOfSymbolsCoarse st = 500%Z ->
                  NoDup (symbols st) -> NoDup (symbols (run calls st))).
    { induction Hcalls as [|[m c] calls Hc _ IH]; intros st Hcap Hst;
        [exact Hst|].
      simpl. destruct (SelectCoarse_cases m c st) as [-> | ->]; simpl.
      - now apply IH.
      - apply IH; [exact Hcap|]. simpl. now apply selection_NoDup. }
    apply G; [reflexivity | constructor].
  - eexists. split; [apply Update_run|].
    rewrite length_map. now apply slice_to_length.
Qed.

Lemma tracked_set_invariant_distinct_candidates_witness :
  Forall (fun call => NoDup (map CoarseFundamental.Symbol (snd call)))
    [(3%Z, candidates)] /\
  (0 <= PumpAndDumpAlphaModel.numberOfStocks top2)%Z /\
  let self := run [(3%Z, candidates)] __init__ in
  (List.length (symbols self) <= 500)%nat /\
  NoDup (symbols self) /\
  exists insights,
    PumpAndDumpAlphaModel.Update session top2 = (Ok insights, top2) /\
    (Z.of_nat (List.length insights)
     <= PumpAndDumpAlphaModel.numberOfStocks top2)%Z.
Proof.
  assert (Hc : Forall
                 (fun call =>
                    NoDup (map CoarseFundamental.Symbol (snd call)))
                 [(3%Z, candidates)]).
  { constructor; [|constructor]. simpl.
    repeat (constructor;
            [simpl; intros H;
             repeat (destruct H as [H | H]; [discriminate|]); exact H|]).
    constructor. }
  assert (Hn : (0 <= PumpAndDumpAlphaModel.numberOfStocks top2)%Z)
    by (simpl; lia).
  split; [exact Hc|]. split; [exact Hn|].
  exact (@tracked_set_invariant_distinct_candidates
           [(3%Z, candidates)] top2 session Hc Hn).
Defined.
End UniverseResults.


(* ===================================================================== *)
(** * Further properties *)

(** ** Sorted lists and prefixes *)

Lemma StronglySorted_unique A (R : A -> A -> Prop) (l l' : list A) :
  (forall x y, In x l -> In y l -> R x y -> R y x -> x = y) ->
  Permutation l l' -> StronglySorted R l -> StronglySorted R l' -> l = l'.
Proof.
  revert l'. induction l as [|x xs IH]; intros l' Hanti Hp Hl Hl'.
  - now apply Permutation_nil in Hp.
  - destruct l' as [|y ys].
    + apply Permutation_sym, Permutation_nil in Hp. discriminate.
    + inversion_clear Hl as [|? ? Hxs Hx].
      inversion_clear Hl' as [|? ? Hys Hy].
      rewrite Forall_forall in Hx, Hy.
      assert (E : x = y).
      { assert (Ix : In x (y :: ys))
          by (apply (Permutation_in _ Hp); now left).
        assert (Iy : In y (x :: xs))
          by (apply (Permutation_in _ (Permutation_sym Hp)); now left).
        destruct Ix as [E | Ix]; [now symmetry|].
        destruct Iy as [E | Iy]; [exact E|].
        apply Hanti; [now left | now right | now apply Hx | now apply Hy]. }
      subst y. f_equal. apply IH; auto.
      * intros a b Ia Ib. apply Hanti; now right.
      * now apply Permutation_cons_inv in Hp.
Qed.

Lemma StronglySorted_app_cross A (R : A -> A -> Prop) (l1 l2 : list A) :
  StronglySorted R (l1 ++ l2) ->
  forall x y, In x l1 -> In y l2 -> R x y.
Proof.
  induction l1 as [|a l1 IH]; simpl; intros H x y Hx Hy; [contradiction|].
  inversion_clear H as [|? ? Hs Ha]. destruct Hx as [-> | Hx].
  - rewrite Forall_forall in Ha. apply Ha, in_or_app. now right.
  - now apply IH.
Qed.

Lemma Permutation_filter_compat A (p : A -> bool) (l l' : list A) :
  Permutation l l' -> Permutation (filter p l) (filter p l').
Proof.
  induction 1 as [|x l l' Hp IH|x y l|l l' l'' H1 IH1 H2 IH2]; simpl.
  - constructor.
  - destruct (p x); [now constructor | exact IH].
  - destruct (p x), (p y); try reflexivity. apply perm_swap.
  - now transitivity (filter p l').
Qed.

Lemma slice_to_split A n (l : list A) :
  exists rest, l = slice_to n l ++ rest.
Proof.
  destruct (slice_to_firstn n l) as [k ->]. exists (skipn k l).
  symmetry. apply firstn_skipn.
Qed.

(** ** The ranking model: what [symbolsRet] holds *)

Section RankingFacts.
Import PumpAndDumpAlphaModel.

Lemma last_valid_exists o obs :
  In o obs -> valid o = true ->
  exists o', last_valid (Security.Symbol o) obs = Some o'.
Proof.
  induction obs as [|y obs IH]; simpl; [tauto|].
  intros [-> | I] Hv.
  - destruct (last_valid (Security.Symbol o) obs); [eauto|].
    rewrite Hv, String.eqb_refl. simpl. eauto.
  - destruct (IH I Hv) as [o' ->]. eauto.
Qed.

Lemma ranked_keys_In obs s :
  In s (keys (ranked obs)) <-> In s (valid_symbols obs).
Proof.
  unfold valid_symbols. rewrite nodup_In, in_map_iff. unfold keys.
  rewrite in_map_iff. split.
  - intros ([s' v] & <- & H). apply ranked_In in H.
    destruct H as (o & Hl & _).
    destruct (last_valid_some _ _ Hl) as (Ho & Hv & Hs).
    exists o. split; [exact Hs|]. apply filter_In. auto.
  - intros (o & <- & H). apply filter_In in H. destruct H as [Ho Hv].
    destruct (last_valid_exists _ _ Ho Hv) as [o' Hl].
    exists (Security.Symbol o, intraday_return o'). split; [reflexivity|].
    apply ranked_In. eauto.
Qed.

Lemma ranked_length obs :
  List.length (ranked obs) = List.length (valid_symbols obs).
Proof.
  rewrite <- (length_map fst (ranked obs)). apply Permutation_length.
  apply NoDup_Permutation.
  - apply ranked_NoDup.
  - apply NoDup_nodup.
  - apply ranked_keys_In.
Qed.

(** With one observation per symbol, the loop stores the valid
    observations' entries in input order. *)
Lemma returns_from_distinct obs d :
  NoDup (map Security.Symbol obs) ->
  (forall o, In o obs -> ~ In (Security.Symbol o) (keys d)) ->
  returns_from obs d = d ++ map entry (filter valid obs).
Proof.
  revert d. induction obs as [|o obs IH]; simpl; intros d Hn Hd.
  - now rewrite app_nil_r.
  - inversion_clear Hn as [|? ? Ho Hobs].
    destruct (valid o) eqn:Hv; simpl.
    + rewrite dict_set_fresh by (apply Hd; now left).
      rewrite IH; [now rewrite <- app_assoc | exact Hobs |].
      intros o' Ho'. unfold keys. rewrite map_app, in_app_iff. simpl.
      intros [I | [E | []]].
      * apply (Hd o'); [now right | exact I].
      * apply Ho. rewrite E. now apply in_map.
    + apply IH; [exact Hobs|]. intros o' Ho'. apply Hd. now right.
Qed.

Lemma float_lt_nonnan a b :
  float_lt a b = true -> nonnan a = true /\ nonnan b = true.
Proof. destruct a, b; try discriminate; auto. Qed.

Lemma float_eq_nonnan a b :
  float_eq a b = true -> nonnan a = true /\ nonnan b = true.
Proof. destruct a, b; try discriminate; auto. Qed.

Lemma rank_order_asym a b : rank_order a b -> rank_order b a -> a = b.
Proof.
  unfold rank_order. intros H H'. exfalso.
  assert (N : nonnan (round (snd a) 6) = true /\
              nonnan (round (snd b) 6) = true).
  { destruct H as [L | [E _]];
      [apply float_lt_nonnan in L | apply float_eq_nonnan in E]; tauto. }
  destruct N as [Na Nb].
  rewrite (float_lt_code _ _ Nb Na), (float_eq_code _ _ Na Nb) in H.
  rewrite (float_lt_code _ _ Na Nb), (float_eq_code _ _ Nb Na) in H'.
  destruct H as [L | [E S]], H' as [L' | [E' S']].
  - apply (@code_lt_irrefl (order_code (round (snd a) 6))).
    eapply code_lt_trans; eassumption.
  - rewrite E' in L. now apply code_lt_irrefl in L.
  - rewrite E in L'. now apply code_lt_irrefl in L'.
  - apply (@symbol_lt_irrefl (fst a)). eapply symbol_lt_trans; eassumption.
Qed.

Lemma ranked_permutation obs obs' :
  NoDup (map Security.Symbol obs) -> Permutation obs obs' ->
  ranked obs = ranked obs'.
Proof.
  intros Hn Hp.
  assert (Hn' : NoDup (map Security.Symbol obs'))
    by (eapply Permutation_NoDup; [apply Permutation_map, Hp | exact Hn]).
  apply StronglySorted_unique with (R := rank_order).
  - intros x y _ _. apply rank_order_asym.
  - rewrite ranked_perm, (ranked_perm obs').
    rewrite !returns_from_distinct by (auto; intros o _ []). simpl.
    now apply Permutation_map, Permutation_filter_compat.
  - apply ranked_sorted.
  - apply ranked_sorted.
Qed.
End RankingFacts.

(** ** The ranking model: further results *)

Section RankingExtras.
Import PumpAndDumpAlphaModel.

(** X1.  With [numberOfStocks >= 0], [Update] returns exactly
    min(numberOfStocks, number of distinct symbols with a valid observation)
    insights. *)
Theorem Update_insight_count (self : t) (obs : list Security.t) :
  (0 <= numberOfStocks self)%Z ->
  exists insights,
    Update obs self = (Ok insights, self) /\
    List.length insights =
    Nat.min (Z.to_nat (numberOfStocks self)) (List.length (valid_symbols obs)).
Proof.
  intros Hn. eexists. split; [apply Update_run|].
  rewrite length_map, slice_to_nonneg by exact Hn.
  now rewrite length_firstn, ranked_length.
Qed.

Lemma Update_insight_count_witness :
  (0 <= numberOfStocks top2)%Z /\
  exists insights,
    Update session top2 = (Ok insights, top2) /\
    List.length insights =
    Nat.min (Z.to_nat (numberOfStocks top2))
      (List.length (valid_symbols session)).
Proof.
  split; [simpl; lia|].
  apply (@Update_insight_count top2 session). simpl; lia.
Defined.

(** X2.  With [numberOfStocks >= 1], [Update] returns no insight exactly
    when no observation is valid (in particular on an empty input); it does
    so without raising. *)
Theorem Update_empty_iff_no_valid (self : t) (obs : list Security.t) :
  (1 <= numberOfStocks self)%Z ->
  (Update obs self = (Ok [], self) <->
   forall o, In o obs -> valid o = false).
Proof.
  intros Hn. rewrite Update_run, slice_to_nonneg by lia.
  assert (Hk : exists k, Z.to_nat (numberOfStocks self) = S k)
    by (exists (Z.to_nat (numberOfStocks self - 1)); lia).
  destruct Hk as [k ->]. split.
  - intros E o Ho. destruct (valid o) eqn:Hv; [|reflexivity]. exfalso.
    assert (I : In (Security.Symbol o) (keys (ranked obs))).
    { apply ranked_keys_In. unfold valid_symbols.
      apply nodup_In, in_map, filter_In. auto. }
    destruct (ranked obs); [exact I | discriminate].
  - intros H. destruct (ranked obs) as [|[s v] l] eqn:E; [reflexivity|].
    exfalso.
    assert (I : In s (keys (ranked obs))) by (rewrite E; now left).
    apply ranked_keys_In in I. unfold valid_symbols in I.
    apply nodup_In, in_map_iff in I. destruct I as (o & _ & I).
    apply filter_In in I. destruct I as [Ho Hv].
    rewrite (H o Ho) in Hv. discriminate.
Qed.

Lemma Update_empty_iff_no_valid_witness :
  (1 <= numberOfStocks top2)%Z /\
  (Update [] top2 = (Ok [], top2) <->
   forall o, In o (@nil Security.t) -> valid o = false).
Proof.
  split; [simpl; lia|].
  apply (@Update_empty_iff_no_valid top2 []). simpl; lia.
Defined.

(** X3.  When the observations carry pairwise distinct symbols, the result
    of [Update] does not depend on the order in which the host lists them. *)
Theorem Update_order_independent
    (self : t) (obs obs' : list Security.t) :
  NoDup (map Security.Symbol obs) -> Permutation obs obs' ->
  Update obs' self = Update obs self.
Proof.
  intros Hn Hp. rewrite !Update_run.
  now rewrite (ranked_permutation Hn Hp).
Qed.

Lemma Update_order_independent_witness :
  NoDup (map Security.Symbol session) /\
  Permutation session (rev session) /\
  Update (rev session) top2 = Update session top2.
Proof.
  assert (Hn : NoDup (map Security.Symbol session)).
  { simpl.
    repeat (constructor;
            [simpl; intros H;
             repeat (destruct H as [H | H]; [discriminate|]); exact H|]).
    constructor. }
  split; [exact Hn|]. split; [apply Permutation_rev|].
  exact (@Update_order_independent top2 session (rev session) Hn
           (Permutation_rev session)).
Defined.

(** X4.  Whatever [numberOfStocks] is, every emitted insight outranks every
    symbol that has a valid observation and got no insight: its rounded
    return is larger, or equal with a smaller symbol. *)
Theorem Update_emitted_outrank_omitted (self : t) (obs : list Security.t) :
  exists insights,
    Update obs self = (Ok insights, self) /\
    forall i s o,
      In i insights ->
      last_valid s obs = Some o ->
      ~ In s (map Insight.Symbol insights) ->
      exists v,
        Insight.Magnitude i = Some v /\
        rank_order (Insight.Symbol i, v)
          (s, float_sub (float_div (Security.Close o) (Security.Open o))
                (float_of_int 1)).
Proof.
  eexists. split; [apply Update_run|].
  intros i s o Hi Hl Hs.
  destruct (slice_to_split (numberOfStocks self) (ranked obs)) as [rest E].
  apply in_map_iff in Hi. destruct Hi as ([s' v] & <- & Hi).
  exists v. split; [reflexivity|]. simpl.
  pose proof (ranked_sorted obs) as Hsorted. rewrite E in Hsorted.
  eapply StronglySorted_app_cross; [exact Hsorted | exact Hi |].
  assert (I : In (s, intraday_return o) (ranked obs))
    by (apply ranked_In; eauto).
  rewrite E in I. apply in_app_or in I. destruct I as [I | I]; [|exact I].
  exfalso. apply Hs. rewrite map_map. simpl.
  change s with (fst (s, intraday_return o)). now apply in_map.
Qed.

(** X5.  When at most [numberOfStocks] symbols have a valid observation,
    every one of them gets an insight, whatever the sign of its return. *)
Theorem Update_under_cap_covers_all (self : t) (obs : list Security.t) :
  (Z.of_nat (List.length (valid_symbols obs)) <= numberOfStocks self)%Z ->
  exists insights,
    Update obs self = (Ok insights, self) /\
    Permutation (map Insight.Symbol insights) (valid_symbols obs).
Proof.
  intros Hn. eexists. split; [apply Update_run|].
  rewrite slice_to_nonneg by lia.
  rewrite firstn_all2 by (rewrite ranked_length; lia).
  rewrite map_map. simpl. apply NoDup_Permutation.
  - apply ranked_NoDup.
  - apply NoDup_nodup.
  - apply ranked_keys_In.
Qed.

Lemma Update_under_cap_covers_all_witness :
  (Z.of_nat (List.length (valid_symbols session)) <= numberOfStocks top10)%Z /\
  exists insights,
    Update session top10 = (Ok insights, top10) /\
    Permutation (map Insight.Symbol insights) (valid_symbols session).
Proof.
  split; [vm_compute; discriminate|].
  apply (@Update_under_cap_covers_all top10 session).
  vm_compute; discriminate.
Defined.

(** X6.  Raising [numberOfStocks] only appends insights: with
    [0 <= n <= n'], the insights for [n] are the first [n] of those for
    [n']. *)
Theorem Update_prefix_of_larger
    (interval : TimeSpan) (n n' : Z) (obs : list Security.t) :
  (0 <= n <= n')%Z ->
  exists more,
    Update obs (Build interval n') = (Ok more, Build interval n') /\
    Update obs (Build interval n) =
    (Ok (firstn (Z.to_nat n) more), Build interval n).
Proof.
  intros Hn. eexists. split; [apply Update_run|].
  rewrite Update_run. simpl. rewrite !slice_to_nonneg by lia.
  rewrite firstn_map, firstn_firstn.
  replace (Nat.min (Z.to_nat n) (Z.to_nat n')) with (Z.to_nat n) by lia.
  reflexivity.
Qed.

Lemma Update_prefix_of_larger_witness :
  (0 <= 2 <= 10)%Z /\
  exists more,
    Update session (Build 86400%Z 10) = (Ok more, Build 86400%Z 10) /\
    Update session (Build 86400%Z 2) =
    (Ok (firstn (Z.to_nat 2) more), Build 86400%Z 2).
Proof.
  split; [lia|].
  apply (@Update_prefix_of_larger 86400%Z 2 10 session). lia.
Defined.
End RankingExtras.

Section RankingEdge.
Import PumpAndDumpAlphaModel.

End RankingEdge.

(** ** The universe filter: further results *)

Section UniverseExtras.
Import PennyStockUniverseSelectionModel.

Lemma by_dollar_volume_length coarse :
  List.length (by_dollar_volume coarse) = List.length (filter passes coarse).
Proof. apply Permutation_length, by_dollar_volume_perm. Qed.

Lemma filter_none A (p : A -> bool) (l : list A) :
  (forall x, In x l -> p x = false) -> filter p l = [].
Proof.
  induction l as [|x l IH]; simpl; intros H; [reflexivity|].
  rewrite (H x (or_introl eq_refl)). apply IH. intros y Hy. apply H.
  now right.
Qed.

Lemma by_dollar_volume_permutation coarse coarse' :
  distinct_dollar_volumes coarse -> Permutation coarse coarse' ->
  by_dollar_volume coarse = by_dollar_volume coarse'.
Proof.
  intros Hd Hp.
  apply StronglySorted_unique with (R := dollar_volume_desc).
  - intros x y Hx Hy Hxy Hyx.
    apply (Permutation_in _ (by_dollar_volume_perm coarse)) in Hx, Hy.
    apply filter_In in Hx, Hy. unfold dollar_volume_desc in *.
    apply Hd; try tauto. lra.
  - rewrite by_dollar_volume_perm, (by_dollar_volume_perm coarse').
    now apply Permutation_filter_compat.
  - apply by_dollar_volume_sorted.
  - apply by_dollar_volume_sorted.
Qed.

(** X8.  After any call the state records the month of the call, keeps its
    cap, and stores exactly the list that was returned. *)
Theorem SelectCoarse_state_coherent
    (self : t) (month : Z) (coarse : list CoarseFundamental.t) :
  let after := snd (SelectCoarse month coarse self) in
  lastMonth after = month /\
  numberOfSymbolsCoarse after = numberOfSymbolsCoarse self /\
  fst (SelectCoarse month coarse self) = Ok (symbols after).
Proof.
  destruct (Z.eq_dec month (lastMonth self)) as [E | N].
  - rewrite (@SelectCoarse_cached month coarse self E). simpl. auto.
  - rewrite (@SelectCoarse_refresh month coarse self N). simpl. auto.
Qed.

(** X9.  On a month change with a cap [>= 0], the call returns exactly
    min(cap, number of passing candidates) symbols. *)
Theorem SelectCoarse_refresh_count
    (self : t) (month : Z) (coarse : list CoarseFundamental.t) :
  month <> lastMonth self ->
  (0 <= numberOfSymbolsCoarse self)%Z ->
  exists selected,
    fst (SelectCoarse month coarse self) = Ok selected /\
    List.length selected =
    Nat.min (Z.to_nat (numberOfSymbolsCoarse self))
      (List.length (filter passes coarse)).
Proof.
  intros Hm Hc. rewrite (@SelectCoarse_refresh month coarse self Hm).
  eexists. split; [reflexivity|].
  unfold selection. rewrite length_map, slice_to_nonneg by exact Hc.
  now rewrite length_firstn, by_dollar_volume_length.
Qed.

Lemma SelectCoarse_refresh_count_witness :
  3%Z <> lastMonth __init__ /\
  (0 <= numberOfSymbolsCoarse __init__)%Z /\
  exists selected,
    fst (SelectCoarse 3 candidates __init__) = Ok selected /\
    List.length selected =
    Nat.min (Z.to_nat (numberOfSymbolsCoarse __init__))
      (List.length (filter passes candidates)).
Proof.
  split; [discriminate|]. split; [vm_compute; discriminate|].
  apply (@SelectCoarse_refresh_count __init__ 3%Z candidates).
  - discriminate.
  - vm_compute; discriminate.
Defined.

(** X10.  On a month change, when no more candidates pass than the cap
    allows, the symbols of all passing candidates are returned. *)
Theorem SelectCoarse_under_cap_keeps_all
    (self : t) (month : Z) (coarse : list CoarseFundamental.t) :
  month <> lastMonth self ->
  (Z.of_nat (List.length (filter passes coarse))
   <= numberOfSymbolsCoarse self)%Z ->
  exists selected,
    fst (SelectCoarse month coarse self) = Ok selected /\
    Permutation selected
      (map CoarseFundamental.Symbol (filter passes coarse)).
Proof.
  intros Hm Hc. rewrite (@SelectCoarse_refresh month coarse self Hm).
  eexists. split; [reflexivity|].
  unfold selection. rewrite slice_to_nonneg by lia.
  rewrite firstn_all2 by (rewrite by_dollar_volume_length; lia).
  apply Permutation_map, by_dollar_volume_perm.
Qed.

Lemma SelectCoarse_under_cap_keeps_all_witness :
  3%Z <> lastMonth __init__ /\
  (Z.of_nat (List.length (filter passes candidates))
   <= numberOfSymbolsCoarse __init__)%Z /\
  exists selected,
    fst (SelectCoarse 3 candidates __init__) = Ok selected /\
    Permutation selected
      (map CoarseFundamental.Symbol (filter passes candidates)).
Proof.
  split; [discriminate|]. split; [vm_compute; discriminate|].
  apply (@SelectCoarse_under_cap_keeps_all __init__ 3%Z candidates).
  - discriminate.
  - vm_compute; discriminate.
Defined.

(** X11.  On a month change the passing candidates split into those
    selected and those left out, and no candidate left out has a larger
    dollar volume than a selected one. *)
Theorem SelectCoarse_selected_outrank_omitted
    (self : t) (month : Z) (coarse : list CoarseFundamental.t) :
  month <> lastMonth self ->
  exists top rest,
    Permutation (top ++ rest) (filter passes coarse) /\
    fst (SelectCoarse month coarse self) =
    Ok (map CoarseFundamental.Symbol top) /\
    forall x y,
      In x top -> In y rest ->
      (CoarseFundamental.DollarVolume y
       <= CoarseFundamental.DollarVolume x)%Q.
Proof.
  intros Hm. rewrite (@SelectCoarse_refresh month coarse self Hm).
  destruct (slice_to_split (numberOfSymbolsCoarse self)
              (by_dollar_volume coarse)) as [rest E].
  exists (slice_to (numberOfSymbolsCoarse self) (by_dollar_volume coarse)),
    rest.
  split; [rewrite <- E; apply by_dollar_volume_perm|].
  split; [reflexivity|].
  intros x y Hx Hy.
  pose proof (by_dollar_volume_sorted coarse) as Hs. rewrite E in Hs.
  eapply (StronglySorted_app_cross (R := dollar_volume_desc));
    [exact Hs | exact Hx | exact Hy].
Qed.

Lemma SelectCoarse_selected_outrank_omitted_witness :
  3%Z <> lastMonth __init__ /\
  exists top rest,
    Permutation (top ++ rest) (filter passes candidates) /\
    fst (SelectCoarse 3 candidates __init__) =
    Ok (map CoarseFundamental.Symbol top) /\
    forall x y,
      In x top -> In y rest ->
      (CoarseFundamental.DollarVolume y
       <= CoarseFundamental.DollarVolume x)%Q.
Proof.
  split; [discriminate|].
  apply (@SelectCoarse_selected_outrank_omitted __init__ 3%Z candidates).
  discriminate.
Defined.

(** X12.  On a month change with no passing candidate (an empty candidate
    list included) the call returns the empty list and the cache is
    replaced by it. *)
Theorem SelectCoarse_none_pass_clears
    (self : t) (month : Z) (coarse : list CoarseFundamental.t) :
  month <> lastMonth self ->
  (forall x, In x coarse -> ~ meets_criteria x) ->
  SelectCoarse month coarse self =
  (Ok [], Build (numberOfSymbolsCoarse self) month []).
Proof.
  intros Hm Hnone. rewrite (@SelectCoarse_refresh month coarse self Hm).
  assert (E : selection (numberOfSymbolsCoarse self) coarse = []).
  { unfold selection, by_dollar_volume. rewrite filter_none.
    - destruct (slice_to_firstn (numberOfSymbolsCoarse self)
                  (sorted_reverse Qltb CoarseFundamental.DollarVolume []))
        as [k ->].
      simpl. now rewrite firstn_nil.
    - intros x Hx. apply Bool.not_true_iff_false. rewrite passes_iff.
      now apply Hnone. }
  now rewrite E.
Qed.

Lemma SelectCoarse_none_pass_clears_witness :
  let self := run [(3%Z, candidates)] __init__ in
  4%Z <> lastMonth self /\
  (forall x, In x (@nil CoarseFundamental.t) -> ~ meets_criteria x) /\
  SelectCoarse 4 [] self = (Ok [], Build (numberOfSymbolsCoarse self) 4 []).
Proof.
  assert (Hm : 4%Z <> lastMonth (run [(3%Z, candidates)] __init__))
    by discriminate.
  assert (Hn : forall x, In x (@nil CoarseFundamental.t) ->
                         ~ meets_criteria x)
    by (intros x []).
  split; [exact Hm|]. split; [exact Hn|].
  exact (@SelectCoarse_none_pass_clears
           (run [(3%Z, candidates)] __init__) 4%Z [] Hm Hn).
Defined.

(** X13.  When no two passing candidates share a dollar volume, the call
    does not depend on the order in which the host lists the candidates. *)
Theorem SelectCoarse_order_independent
    (self : t) (month : Z) (coarse coarse' : list CoarseFundamental.t) :
  distinct_dollar_volumes coarse -> Permutation coarse coarse' ->
  SelectCoarse month coarse' self = SelectCoarse month coarse self.
Proof.
  intros Hd Hp. destruct (Z.eq_dec month (lastMonth self)) as [E | N].
  - rewrite (@SelectCoarse_cached month coarse self E).
    now rewrite (@SelectCoarse_cached month coarse' self E).
  - rewrite (@SelectCoarse_refresh month coarse self N).
    rewrite (@SelectCoarse_refresh month coarse' self N). unfold selection.
    now rewrite (by_dollar_volume_permutation Hd Hp).
Qed.

Lemma SelectCoarse_order_independent_witness :
  distinct_dollar_volumes candidates /\
  Permutation candidates candidates_reordered /\
  SelectCoarse 3 candidates_reordered __init__ =
  SelectCoarse 3 candidates __init__.
Proof.
  assert (Hd : distinct_dollar_volumes candidates).
  { intros x y Hx Hy Px Py E. simpl in Hx, Hy.
    repeat (destruct Hx as [<- | Hx]; [|]); try contradiction;
      try (vm_compute in Px; discriminate);
      repeat (destruct Hy as [<- | Hy]; [|]); try contradiction;
      try (vm_compute in Py; discriminate);
      try reflexivity; vm_compute in E; discriminate. }
  split; [exact Hd|]. split; [apply Permutation_rev|].
  exact (@SelectCoarse_order_independent __init__ 3%Z candidates
           candidates_reordered Hd (Permutation_rev candidates)).
Defined.
End UniverseExtras.
